(** * aws-cdk-learning: the hit-counter, its stacks and the EC2 two-tier
    network

    The repository declares cloud resources with the AWS CDK.  Every
    constructor of the TypeScript sources ([new X(scope, id, props)]) adds a
    node to the construct tree and every [grant...]/[addIngressRule] call
    records a permission or a firewall rule.  The embedding below threads
    that tree explicitly: a constructor is a function in the [Synth] monad
    (state passing over [App], failing when an id is already taken in its
    scope, as the construct library throws).

    The body of the hit-counter Lambda ([lambda/hitcounter.js]) is referenced
    by the stacks but is not among the sources; it is modelled from the
    specification in the second half of the file. *)

From stdpp Require Import gmap strings list fin_maps.
From Stdlib Require Import ZArith.

#[local] Open Scope string_scope.

(** ** Construct tree *)

(** A construct is addressed by the ids on the way from the root to it. *)
Abbreviation ConstructPath := (list string).

(** Deploy-time values.  [table.tableName], [fn.functionName] and the
    instance addresses are tokens resolved by the provider; [Literal] is a
    string written in the source. *)
Inductive Token :=
| Literal (s : string)
| TableNameOf (table : ConstructPath)
| FunctionNameOf (fn : ConstructPath)
| InstancePublicIpOf (inst : ConstructPath)
| InstancePrivateIpOf (inst : ConstructPath)
| BucketWebsiteUrlOf (bucket : ConstructPath).

Definition is_literal (t : Token) : bool :=
  match t with Literal _ => true | _ => false end.

Inductive RemovalPolicy := DESTROY | RETAIN | SNAPSHOT.

(** *** aws-dynamodb *)
Module dynamodb.
Inductive AttributeType := BINARY | NUMBER | STRING.
Inductive BillingMode := PAY_PER_REQUEST | PROVISIONED.
Record Attribute := { name : string; type : AttributeType }.
Record TableProps := {
  partitionKey : Attribute;
  sortKey : option Attribute;
  removalPolicy : option RemovalPolicy;
  billingMode : option BillingMode
}.
Record Table := { node : ConstructPath }.
Definition tableName (t : Table) : Token := TableNameOf (node t).
End dynamodb.

(** *** aws-lambda *)
Module lambda.
Inductive Runtime := NODEJS_18_X.
Inductive Code :=
| fromInline (src : string)
| fromAsset (dir : string).
#[global] Instance Code_eq_dec : EqDecision Code.
Proof. solve_decision. Defined.
Record FunctionProps := {
  runtime : Runtime;
  code : Code;
  handler : string;
  environment : gmap string Token
}.
(** [lambda.Function] and [lambda.IFunction]: a reference to the node of a
    function declared in the tree, whose name is a token. *)
Record IFunction := { node : ConstructPath }.
Definition functionName (f : IFunction) : Token := FunctionNameOf (node f).
End lambda.

(** *** aws-apigateway *)
Module apigw.
(** [proxy] is optional in the library and defaults to [true]; neither
    stack sets it. *)
Record LambdaRestApiProps := {
  handler : lambda.IFunction;
  proxy : option bool
}.
End apigw.

(** *** aws-ec2 *)
Module ec2.
Inductive SubnetType := PUBLIC | PRIVATE_WITH_EGRESS | PRIVATE_ISOLATED.
Record SubnetConfiguration := {
  cidrMask : Z;
  name : string;
  subnetType : SubnetType
}.
Record VpcProps := {
  ipAddresses : string;
  maxAzs : Z;
  subnetConfiguration : list SubnetConfiguration;
  natGateways : Z
}.
Record Vpc := { vpc_node : ConstructPath }.

Record SecurityGroupProps := {
  vpc : Vpc;
  description : string
}.
Record SecurityGroup := { node : ConstructPath }.

(** [ec2.Peer]: where traffic may come from.  A security group is itself a
    peer ([backendSG.addIngressRule(frontendSG, ...)]). *)
Inductive Peer :=
| ipv4 (base : Z) (prefix : Z)
| peerGroup (sg : SecurityGroup).
(** [Peer.anyIpv4()] is the block 0.0.0.0/0. *)
Definition anyIpv4 : Peer := ipv4 0 0.

Inductive Protocol := TCP | UDP | ICMP.
Record Port := { protocol : Protocol; fromPort : Z; toPort : Z }.
Definition tcp (n : Z) : Port :=
  {| protocol := TCP; fromPort := n; toPort := n |}.

Record IngressRule := {
  target : SecurityGroup;
  peer : Peer;
  connection : Port;
  rule_description : string
}.

Inductive InstanceClass := T2 | T3.
Inductive InstanceSize := MICRO | SMALL.
Inductive AmazonLinuxGeneration := AMAZON_LINUX_2 | AMAZON_LINUX_2023.
(** The boot scripts ([userData]) are shell text that no rule below reads;
    an instance keeps the fields that place it in the network. *)
Record InstanceProps := {
  inst_vpc : Vpc;
  vpcSubnets : SubnetType;
  instanceType : InstanceClass * InstanceSize;
  machineImage : AmazonLinuxGeneration;
  securityGroup : SecurityGroup
}.
Record Instance := { inst_node : ConstructPath }.
Definition instancePublicIp (i : Instance) : Token :=
  InstancePublicIpOf (inst_node i).
Definition instancePrivateIp (i : Instance) : Token :=
  InstancePrivateIpOf (inst_node i).
End ec2.

(** *** aws-s3 and aws-s3-deployment *)
Module s3.
Inductive BlockPublicAccess := BLOCK_ALL | BLOCK_ACLS_ONLY.
Record BucketProps := {
  versioned : bool;
  removalPolicy : RemovalPolicy;
  autoDeleteObjects : bool;
  websiteIndexDocument : string;
  publicReadAccess : bool;
  blockPublicAccess : BlockPublicAccess
}.
Record Bucket := { node : ConstructPath }.
Definition bucketWebsiteUrl (b : Bucket) : Token :=
  BucketWebsiteUrlOf (node b).
End s3.

Module s3deploy.
Inductive Source := asset (dir : string).
Record BucketDeploymentProps := {
  sources : list Source;
  destinationBucket : s3.Bucket
}.
End s3deploy.

(** *** The tree and what is recorded beside it *)

Inductive Resource :=
| RConstruct (class : string)
| RStack
| RTable (props : dynamodb.TableProps)
| RFunction (props : lambda.FunctionProps)
| RLambdaRestApi (props : apigw.LambdaRestApiProps)
| RVpc (props : ec2.VpcProps)
| RSecurityGroup (props : ec2.SecurityGroupProps)
| RInstance (props : ec2.InstanceProps)
| RBucket (props : s3.BucketProps)
| RBucketDeployment (props : s3deploy.BucketDeploymentProps)
| RCfnOutput (value : list Token).

Inductive Permission := ReadData | WriteData | InvokeFunction.

#[global] Instance Permission_eq_dec : EqDecision Permission.
Proof. solve_decision. Defined.

(** A permission given by an explicit grant call of the sources
    ([grantReadWriteData], [grantInvoke]).  What library constructs set up on
    their own (the permission of API Gateway to invoke the handler of a
    [LambdaRestApi], the read policy of a public bucket, the access of a
    bucket deployment to its bucket) is not recorded. *)
Record Grant := {
  grantee : ConstructPath;
  resource : ConstructPath;
  permissions : list Permission
}.

Record App := {
  constructs : list (ConstructPath * Resource);
  grants : list Grant;
  ingress : list ec2.IngressRule
}.

Definition empty_app : App :=
  {| constructs := []; grants := []; ingress := [] |}.

Fixpoint lookup_construct (p : ConstructPath)
    (cs : list (ConstructPath * Resource)) : option Resource :=
  match cs with
  | [] => None
  | (q, r) :: cs' => if decide (q = p) then Some r else lookup_construct p cs'
  end.

(** ** Synthesis monad *)

Definition Synth (A : Type) : Type := App → option (A * App).

#[global] Instance Synth_ret : MRet Synth := λ A a st, Some (a, st).
#[global] Instance Synth_bind : MBind Synth := λ A B f m st,
  match m st with
  | Some (a, st') => f a st'
  | None => None
  end.

(** [new C(scope, id)]: the node [scope/id] is added; an id already used in
    the scope is an error.  This collision is the one check of the construct
    library that is modelled: what else the library refuses (an empty id, a
    stack name outside its syntax, a resource outside any stack, an asset
    directory that is not on disk) is not, so a synthesis that ends here is
    one without an id collision and no more than that. *)
Definition add_child (scope : ConstructPath) (id : string) (r : Resource)
    : Synth ConstructPath := λ st,
  let p := (scope ++ [id])%list in
  match lookup_construct p (constructs st) with
  | Some _ => None
  | None =>
      Some (p, {| constructs := (constructs st ++ [(p, r)])%list;
                  grants := grants st;
                  ingress := ingress st |})
  end.

Definition add_grant (g : Grant) : Synth unit := λ st,
  Some (tt, {| constructs := constructs st;
               grants := (grants st ++ [g])%list;
               ingress := ingress st |}).

Definition add_ingress (r : ec2.IngressRule) : Synth unit := λ st,
  Some (tt, {| constructs := constructs st;
               grants := grants st;
               ingress := (ingress st ++ [r])%list |}).

(** [super(scope, id)] of a class that extends [Construct]: the instance
    becomes the node [scope/id]. *)
Definition new_Construct (class : string) (scope : ConstructPath)
    (id : string) : Synth ConstructPath :=
  add_child scope id (RConstruct class).

(** [new cdk.Stack(scope, id, props)]: the node of the stack.  The syntax
    the library asks of a stack name is not checked. *)
Definition new_Stack (scope : ConstructPath) (id : string)
    : Synth ConstructPath :=
  add_child scope id RStack.

Definition new_Table (scope : ConstructPath) (id : string)
    (props : dynamodb.TableProps) : Synth dynamodb.Table :=
  p ← add_child scope id (RTable props);
  mret {| dynamodb.node := p |}.

Definition new_Function (scope : ConstructPath) (id : string)
    (props : lambda.FunctionProps) : Synth lambda.IFunction :=
  p ← add_child scope id (RFunction props);
  mret {| lambda.node := p |}.

(** [new apigw.LambdaRestApi(scope, id, props)]: the node of the API with
    its handler.  The permission the library adds for API Gateway to invoke
    the handler is not recorded in [grants]. *)
Definition new_LambdaRestApi (scope : ConstructPath) (id : string)
    (props : apigw.LambdaRestApiProps) : Synth ConstructPath :=
  add_child scope id (RLambdaRestApi props).

Definition new_Vpc (scope : ConstructPath) (id : string)
    (props : ec2.VpcProps) : Synth ec2.Vpc :=
  p ← add_child scope id (RVpc props);
  mret {| ec2.vpc_node := p |}.

Definition new_SecurityGroup (scope : ConstructPath) (id : string)
    (props : ec2.SecurityGroupProps) : Synth ec2.SecurityGroup :=
  p ← add_child scope id (RSecurityGroup props);
  mret {| ec2.node := p |}.

Definition new_Instance (scope : ConstructPath) (id : string)
    (props : ec2.InstanceProps) : Synth ec2.Instance :=
  p ← add_child scope id (RInstance props);
  mret {| ec2.inst_node := p |}.

(** [new s3.Bucket(scope, id, props)]: the node of the bucket with its
    props.  The read policy the library attaches for [publicReadAccess] is
    read off the props, not recorded in [grants]. *)
Definition new_Bucket (scope : ConstructPath) (id : string)
    (props : s3.BucketProps) : Synth s3.Bucket :=
  p ← add_child scope id (RBucket props);
  mret {| s3.node := p |}.

(** [new s3deploy.BucketDeployment(scope, id, props)]: the node of the
    deployment with its sources and destination.  The access to the bucket
    the library gives its deployment handler is not recorded in [grants],
    and the source directory is not looked up. *)
Definition new_BucketDeployment (scope : ConstructPath) (id : string)
    (props : s3deploy.BucketDeploymentProps) : Synth ConstructPath :=
  add_child scope id (RBucketDeployment props).

Definition new_CfnOutput (scope : ConstructPath) (id : string)
    (value : list Token) : Synth ConstructPath :=
  add_child scope id (RCfnOutput value).

(** [table.grantReadWriteData(fn)] *)
Definition grantReadWriteData (t : dynamodb.Table) (g : lambda.IFunction)
    : Synth unit :=
  add_grant {| grantee := lambda.node g;
               resource := dynamodb.node t;
               permissions := [ReadData; WriteData] |}.

(** [fn.grantInvoke(grantee)], for a function declared in the tree. *)
Definition grantInvoke (f : lambda.IFunction) (g : lambda.IFunction)
    : Synth unit :=
  add_grant {| grantee := lambda.node g;
               resource := lambda.node f;
               permissions := [InvokeFunction] |}.

(** [sg.addIngressRule(peer, port, description)] *)
Definition addIngressRule (sg : ec2.SecurityGroup) (peer : ec2.Peer)
    (port : ec2.Port) (descr : string) : Synth unit :=
  add_ingress {| ec2.target := sg; ec2.peer := peer;
                 ec2.connection := port; ec2.rule_description := descr |}.

(** ** The HitCounter construct (hitcounter.ts) *)
Module hitcounter.
Record HitCounterProps := { downstream : lambda.IFunction }.

Record HitCounter := {
  handler : lambda.IFunction;
  table : dynamodb.Table
}.

Definition new_HitCounter (scope : ConstructPath) (id : string)
    (props : HitCounterProps) : Synth HitCounter :=
  this ← new_Construct "HitCounter" scope id;
  table ← new_Table this "Hits"
    {| dynamodb.partitionKey :=
         {| dynamodb.name := "path"; dynamodb.type := dynamodb.STRING |};
       dynamodb.sortKey := None;
       dynamodb.removalPolicy := Some DESTROY;
       dynamodb.billingMode := Some dynamodb.PAY_PER_REQUEST |};
  handler ← new_Function this "HitCounterHandler"
    {| lambda.runtime := lambda.NODEJS_18_X;
       lambda.handler := "hitcounter.handler";
       lambda.code := lambda.fromAsset "lambda";
       lambda.environment :=
         {[ "HITS_TABLE_NAME" := dynamodb.tableName table;
            "DOWNSTREAM_FUNCTION_NAME" :=
              lambda.functionName (downstream props) ]} |};
  grantReadWriteData table handler;;
  grantInvoke (downstream props) handler;;
  mret {| handler := handler; table := table |}.
End hitcounter.

(** ** Stacks *)

(** The stack that wraps a business function with the [HitCounter]
    construct (the source that imports [./hitcounter]). *)
Module wrapped.
Definition dq : string := String (Ascii.ascii_of_nat 34) EmptyString.

(** The inline source of [helloFn], as passed to [Code.fromInline]. *)
Definition helloFn_src : string :=
  "exports.handler = async () => { return { statusCode: 200, body: "
  +:+ dq +:+ "Hello Architect!" +:+ dq +:+ " }; };".

Definition HitCounterAppStack (scope : ConstructPath) (id : string)
    : Synth ConstructPath :=
  this ← new_Stack scope id;
  helloFn ← new_Function this "HelloHandler"
    {| lambda.runtime := lambda.NODEJS_18_X;
       lambda.code := lambda.fromInline helloFn_src;
       lambda.handler := "index.handler";
       lambda.environment := ∅ |};
  helloWithCounter ← hitcounter.new_HitCounter this "HelloHitCounter"
    {| hitcounter.downstream := helloFn |};
  new_LambdaRestApi this "Endpoint"
    {| apigw.handler := hitcounter.handler helloWithCounter;
       apigw.proxy := None |};;
  mret this.
End wrapped.

(** hit-counter-app/lib/hit-counter-app-stack.ts: table, counting function
    and API declared directly in the stack. *)
Module standalone.
Definition HitCounterAppStack (scope : ConstructPath) (id : string)
    : Synth ConstructPath :=
  this ← new_Stack scope id;
  table ← new_Table this "Hits"
    {| dynamodb.partitionKey :=
         {| dynamodb.name := "path"; dynamodb.type := dynamodb.STRING |};
       dynamodb.sortKey := None;
       dynamodb.removalPolicy := Some DESTROY;
       dynamodb.billingMode := None |};
  hitCounterFn ← new_Function this "HitCounterHandler"
    {| lambda.runtime := lambda.NODEJS_18_X;
       lambda.code := lambda.fromAsset "lambda";
       lambda.handler := "hitcounter.handler";
       lambda.environment :=
         {[ "HITS_TABLE_NAME" := dynamodb.tableName table ]} |};
  grantReadWriteData table hitCounterFn;;
  new_LambdaRestApi this "Endpoint"
    {| apigw.handler := hitCounterFn; apigw.proxy := None |};;
  mret this.
End standalone.

(** ec2-classic/lib/ec2-classic-stack.ts *)
Definition Ec2ClassicStack (scope : ConstructPath) (id : string)
    : Synth ConstructPath :=
  this ← new_Stack scope id;
  vpc ← new_Vpc this "MyLabVPC"
    {| ec2.ipAddresses := "10.0.0.0/16";
       ec2.maxAzs := 2;
       ec2.subnetConfiguration :=
         [{| ec2.cidrMask := 24; ec2.name := "PublicSubnet";
             ec2.subnetType := ec2.PUBLIC |}];
       ec2.natGateways := 0 |};
  frontendSG ← new_SecurityGroup this "FrontendSG"
    {| ec2.vpc := vpc; ec2.description := "Allow HTTP access from world" |};
  addIngressRule frontendSG ec2.anyIpv4 (ec2.tcp 80)
    "Allow HTTP from anywhere";;
  backendSG ← new_SecurityGroup this "BackendSG"
    {| ec2.vpc := vpc;
       ec2.description := "Allow access only from Frontend" |};
  addIngressRule backendSG (ec2.peerGroup frontendSG) (ec2.tcp 3000)
    "Allow Node traffic from Frontend";;
  let machineImage := ec2.AMAZON_LINUX_2023 in
  backendServer ← new_Instance this "BackendServer"
    {| ec2.inst_vpc := vpc;
       ec2.vpcSubnets := ec2.PUBLIC;
       ec2.instanceType := (ec2.T2, ec2.MICRO);
       ec2.machineImage := machineImage;
       ec2.securityGroup := backendSG |};
  frontendServer ← new_Instance this "FrontendServer"
    {| ec2.inst_vpc := vpc;
       ec2.vpcSubnets := ec2.PUBLIC;
       ec2.instanceType := (ec2.T2, ec2.MICRO);
       ec2.machineImage := machineImage;
       ec2.securityGroup := frontendSG |};
  new_CfnOutput this "FrontendURL"
    [Literal "http://"; ec2.instancePublicIp frontendServer];;
  new_CfnOutput this "BackendIP" [ec2.instancePrivateIp backendServer];;
  mret this.

(** my-cdk-app/lib/my-cdk-app-stack.ts *)
Definition MyCdkAppStack (scope : ConstructPath) (id : string)
    : Synth ConstructPath :=
  this ← new_Stack scope id;
  myBucket ← new_Bucket this "MyFirstBucket"
    {| s3.versioned := true;
       s3.removalPolicy := DESTROY;
       s3.autoDeleteObjects := true;
       s3.websiteIndexDocument := "index.html";
       s3.publicReadAccess := true;
       s3.blockPublicAccess := s3.BLOCK_ACLS_ONLY |};
  new_BucketDeployment this "DeployWebsite"
    {| s3deploy.sources := [s3deploy.asset "./website"];
       s3deploy.destinationBucket := myBucket |};;
  new_CfnOutput this "WebsiteURL" [s3.bucketWebsiteUrl myBucket];;
  mret this.

(** The stacks of the repository, and those that declare the counting
    function. *)
Definition repository_stacks
    : list (ConstructPath → string → Synth ConstructPath) :=
  [wrapped.HitCounterAppStack; standalone.HitCounterAppStack;
   Ec2ClassicStack; MyCdkAppStack].

Definition forwarder_stacks
    : list (ConstructPath → string → Synth ConstructPath) :=
  [wrapped.HitCounterAppStack; standalone.HitCounterAppStack].

(** ** What the declarations mean at run time *)

(** Modelled from the spec: the routing of the public HTTP entry point,
    which is the library's [LambdaRestApi] and not code of the sources ("routes
    all inbound HTTP methods/paths to the forwarder; no custom routing
    logic").  With [proxy] (the default when the prop is absent) the construct
    declares ANY on the root and on the greedy sub-resource, both integrated
    with [handler], so method and path select nothing; with [proxy] switched
    off the construct declares no method of its own. *)
Definition LambdaRestApi_route (props : apigw.LambdaRestApiProps)
    (method path : string) : option lambda.IFunction :=
  if default true (apigw.proxy props) then Some (apigw.handler props)
  else None.

(** The function resource that runs the counting code: the [handler]
    export of [hitcounter.js] from the [lambda] asset directory. *)
Definition is_forwarder (props : lambda.FunctionProps) : bool :=
  bool_decide (lambda.code props = lambda.fromAsset "lambda")
  && bool_decide (lambda.handler props = "hitcounter.handler").

(** The configuration of a function names both the counter store and the
    downstream handler, each by the token of a resource. *)
Definition supplies_both (props : lambda.FunctionProps) : Prop :=
  (∃ t, lambda.environment props !! "HITS_TABLE_NAME"
          = Some (TableNameOf t))
  ∧ (∃ f, lambda.environment props !! "DOWNSTREAM_FUNCTION_NAME"
            = Some (FunctionNameOf f)).

(** A grant lets [who] use [perm] on [what]. *)
Definition permitted (st : App) (who what : ConstructPath)
    (perm : Permission) : Prop :=
  ∃ g, g ∈ grants st ∧ grantee g = who ∧ resource g = what
       ∧ perm ∈ permissions g.

(** Nodes added to the tree between two states of the synthesis. *)
Definition created (st st' : App) : list (ConstructPath * Resource) :=
  drop (length (constructs st)) (constructs st').

(** The provider's reading of ingress rules.  Inbound traffic as a security
    group sees it: the sender's IPv4 address (as a 32-bit number), the
    security groups the sender belongs to, the protocol and the destination
    port. *)
Record Packet := {
  src_addr : Z;
  src_groups : list ec2.SecurityGroup;
  pkt_protocol : ec2.Protocol;
  dst_port : Z
}.

#[global] Instance SecurityGroup_eq_dec : EqDecision ec2.SecurityGroup.
Proof. solve_decision. Defined.
#[global] Instance Protocol_eq_dec : EqDecision ec2.Protocol.
Proof. solve_decision. Defined.

Definition cidr_contains (base prefix addr : Z) : bool :=
  (Z.shiftr addr (32 - prefix) =? Z.shiftr base (32 - prefix))%Z.

Arguments cidr_contains : simpl never.

Definition peer_admits (p : ec2.Peer) (pkt : Packet) : bool :=
  match p with
  | ec2.ipv4 base prefix => cidr_contains base prefix (src_addr pkt)
  | ec2.peerGroup sg => bool_decide (sg ∈ src_groups pkt)
  end.

Definition port_admits (c : ec2.Port) (pkt : Packet) : bool :=
  bool_decide (ec2.protocol c = pkt_protocol pkt)
  && (ec2.fromPort c <=? dst_port pkt)%Z && (dst_port pkt <=? ec2.toPort c)%Z.

Definition rule_admits (sg : ec2.SecurityGroup) (r : ec2.IngressRule)
    (pkt : Packet) : bool :=
  bool_decide (ec2.target r = sg)
  && peer_admits (ec2.peer r) pkt && port_admits (ec2.connection r) pkt.

(** A security group lets a packet in when one of its ingress rules does. *)
Definition admits (st : App) (sg : ec2.SecurityGroup) (pkt : Packet) : bool :=
  existsb (λ r, rule_admits sg r pkt) (ingress st).

Definition rules_of (st : App) (sg : ec2.SecurityGroup)
    : list ec2.IngressRule :=
  filter (λ r, ec2.target r = sg) (ingress st).

(** Rules are only ever added to a security group that is in the tree
    ([addIngressRule] is a method of the group). *)
Definition ingress_wf (st : App) : Prop :=
  ∀ r, r ∈ ingress st →
       is_Some (lookup_construct (ec2.node (ec2.target r)) (constructs st)).

(** ** The inline business function *)

Record HttpResponse := { statusCode : Z; body : string }.

(** The behaviour of [wrapped.helloFn_src], [async () => { return {
    statusCode: 200, body: ... }; }]: the handler takes no parameter, so
    whatever it is invoked with is ignored. *)
Definition helloFn_handler {E : Type} (_ : E) : HttpResponse :=
  {| statusCode := 200; body := "Hello Architect!" |}.

(** *** What an inline source means *)

(** The text given to [Code.fromInline] is JavaScript.  Its meaning is given
    here for the one shape of handler the repository writes inline,
    [exports.handler = async () => { return { statusCode: N, body: S }; };]
    with [N] a decimal number and [S] a double-quoted string without escapes:
    an asynchronous function without parameters that returns the same record
    whatever it is invoked with.  Any other text has no meaning here. *)

Definition dquote : Ascii.ascii := Ascii.ascii_of_nat 34.
Definition backslash : Ascii.ascii := Ascii.ascii_of_nat 92.

Fixpoint strip_prefix (p s : string) : option string :=
  match p with
  | EmptyString => Some s
  | String a p' =>
      match s with
      | String b s' => if Ascii.eqb a b then strip_prefix p' s' else None
      | EmptyString => None
      end
  end.

Definition is_digit (c : Ascii.ascii) : bool :=
  (48 <=? Ascii.nat_of_ascii c)%nat && (Ascii.nat_of_ascii c <=? 57)%nat.

Fixpoint read_digits (s : string) (acc : Z) : Z * string :=
  match s with
  | String c s' =>
      if is_digit c
      then read_digits s' (10 * acc + (Z.of_nat (Ascii.nat_of_ascii c) - 48))%Z
      else (acc, s)
  | EmptyString => (acc, s)
  end.

(** A decimal number: at least one digit. *)
Definition read_number (s : string) : option (Z * string) :=
  match s with
  | String c _ => if is_digit c then Some (read_digits s 0%Z) else None
  | EmptyString => None
  end.

(** The characters up to the closing quote, and what follows it. *)
Fixpoint read_string_body (s : string) : option (string * string) :=
  match s with
  | EmptyString => None
  | String c s' =>
      if Ascii.eqb c dquote then Some (EmptyString, s')
      else if Ascii.eqb c backslash then None
      else match read_string_body s' with
           | Some (b, rest) => Some (String c b, rest)
           | None => None
           end
  end.

Definition inline_const_response (src : string) : option HttpResponse :=
  s1 ← strip_prefix "exports.handler = async () => { return { statusCode: "
         src;
  '(n, s2) ← read_number s1;
  s3 ← strip_prefix ", body: " s2;
  s4 ← strip_prefix (String dquote EmptyString) s3;
  '(b, s5) ← read_string_body s4;
  s6 ← strip_prefix " }; };" s5;
  match s6 with
  | EmptyString => Some {| statusCode := n; body := b |}
  | String _ _ => None
  end.

(** The handler a function resource runs, when its code is inline. *)
Definition function_handler {E : Type} (props : lambda.FunctionProps)
    : option (E → HttpResponse) :=
  match lambda.code props with
  | lambda.fromInline src => (λ r _, r) <$> inline_const_response src
  | lambda.fromAsset _ => None
  end.

(** ** The counting forwarder ([lambda/hitcounter.js]) *)

Section Forwarder.
(** The request record is opaque but for its [path] field; responses and
    the errors raised by the surroundings are opaque. *)
Context {Event Response Err : Type}.
Variable path : Event → string.

(** Modelled from the spec: the Hit Records, a durable map from request
    path to an integer count; the store is the provider's table and is not in
    the sources.  [hits] reads a counter; a path never seen has no record. *)
Definition hits (s : gmap string Z) (p : string) : Z := default 0%Z (s !! p).

(** Modelled from the spec: the store's atomic increment-by-key, which is
    not in the sources.  The Hit Record of a path is created on its first
    occurrence and counted up by one thereafter; no record is deleted. *)
Definition increment (p : string) (s : gmap string Z) : gmap string Z :=
  <[p := (hits s p + 1)%Z]> s.

(** Modelled from the spec: what the surroundings answer during one
    invocation, namely whether the store write fails (and with what error),
    and what the downstream handler returns or raises for an input.  Neither
    is decided by code of the sources. *)
Record Env := {
  store_fault : option Err;
  downstream : Event → Err + Response
}.

(** Requests the forwarder sends out. *)
Inductive Call :=
| UpdateItem (key : string)
| Invoke (ev : Event).

Definition is_update (c : Call) : bool :=
  match c with UpdateItem _ => true | Invoke _ => false end.
Definition is_invoke (c : Call) : bool :=
  match c with Invoke _ => true | UpdateItem _ => false end.

Record World := { store : gmap string Z; calls : list Call }.

(** State and errors of one invocation: an error ends the invocation and
    reaches the caller as it is. *)
Definition Run (A : Type) : Type := World → World * (Err + A).

Definition Run_ret {A} (a : A) : Run A := λ w, (w, inr a).
Definition Run_bind {A B} (m : Run A) (k : A → Run B) : Run B := λ w,
  match m w with
  | (w', inr a) => k a w'
  | (w', inl e) => (w', inl e)
  end.

(** Modelled from the spec: the write to the counter store issued by
    [hitcounter.js], which is not in the sources.  One request to the
    store; when the store fails nothing is written. *)
Definition update_item (env : Env) (p : string) : Run unit := λ w,
  let w' :=
    {| store := store w; calls := (calls w ++ [UpdateItem p])%list |} in
  match store_fault env with
  | Some e => (w', inl e)
  | None =>
      ({| store := increment p (store w);
          calls := (calls w ++ [UpdateItem p])%list |}, inr tt)
  end.

(** Modelled from the spec: the invoke-by-identifier of the downstream
    handler issued by [hitcounter.js], which is not in the sources; the
    original input is passed on. *)
Definition invoke (env : Env) (ev : Event) : Run Response := λ w,
  ({| store := store w; calls := (calls w ++ [Invoke ev])%list |},
   downstream env ev).

(** Modelled from the spec: the handler exported by [lambda/hitcounter.js],
    which is not in the sources.  It records one occurrence for the
    request's path, then invokes the downstream handler with the original
    input and returns its output verbatim; nothing is caught, wrapped or
    retried. *)
Definition hitcounter_handler (env : Env) (ev : Event) : Run Response :=
  Run_bind (update_item env (path ev)) (λ _,
  Run_bind (invoke env ev) (λ resp,
  Run_ret resp)).

(** Modelled from the spec: invocations one after the other ("for a path
    invoked n times"), each under its own surroundings; the dispatcher that
    triggers them is not in the sources. *)
Fixpoint run_all (reqs : list (Env * Event)) (w : World)
    : World * list (Err + Response) :=
  match reqs with
  | [] => (w, [])
  | (env, ev) :: reqs' =>
      let '(w1, r) := hitcounter_handler env ev w in
      let '(w2, rs) := run_all reqs' w1 in
      (w2, r :: rs)
  end.

(** An invocation in which neither the store nor the downstream fails. *)
Definition no_failure (req : Env * Event) : Prop :=
  store_fault req.1 = None ∧ ∃ r, downstream req.1 req.2 = inr r.

(** How many of the requests are for path [p]. *)
Definition invocations_for (p : string) (reqs : list (Env * Event)) : nat :=
  length (filter (λ req, path req.2 = p) reqs).

Definition empty_world : World := {| store := ∅; calls := [] |}.
End Forwarder.

Arguments Env : clear implicits.
Arguments World : clear implicits.
Arguments Call : clear implicits.

(** ** Well-formedness of a synthesized tree *)

(** No two nodes of the tree share a path. *)
Definition paths_unique (st : App) : Prop := NoDup (constructs st).*1.

(** Every node that is not directly under the root has its parent in the
    tree. *)
Definition parents_present (st : App) : Prop :=
  ∀ p a r, ((p ++ [a])%list, r) ∈ constructs st →
           p = [] ∨ ∃ r', (p, r') ∈ constructs st.

(** The place a construct is created in: the root, or a node of the tree. *)
Definition scope_ok (st : App) (scope : ConstructPath) : Prop :=
  scope = [] ∨ ∃ r, (scope, r) ∈ constructs st.

Definition is_table (st : App) (p : ConstructPath) : Prop :=
  ∃ props, (p, RTable props) ∈ constructs st.
Definition is_function (st : App) (p : ConstructPath) : Prop :=
  ∃ props, (p, RFunction props) ∈ constructs st.
Definition is_vpc (st : App) (p : ConstructPath) : Prop :=
  ∃ props, (p, RVpc props) ∈ constructs st.
Definition is_group (st : App) (p : ConstructPath) : Prop :=
  ∃ props, (p, RSecurityGroup props) ∈ constructs st.
Definition is_instance (st : App) (p : ConstructPath) : Prop :=
  ∃ props, (p, RInstance props) ∈ constructs st.
Definition is_bucket (st : App) (p : ConstructPath) : Prop :=
  ∃ props, (p, RBucket props) ∈ constructs st.

(** A token names a resource of the kind it reads from. *)
Definition token_ok (st : App) (t : Token) : Prop :=
  match t with
  | Literal _ => True
  | TableNameOf p => is_table st p
  | FunctionNameOf p => is_function st p
  | InstancePublicIpOf p | InstancePrivateIpOf p => is_instance st p
  | BucketWebsiteUrlOf p => is_bucket st p
  end.

(** The references held in the props of a node point at nodes of the tree,
    each of the kind the prop expects. *)
Definition resource_refs_ok (st : App) (r : Resource) : Prop :=
  match r with
  | RFunction props =>
      map_Forall (λ _ t, token_ok st t) (lambda.environment props)
  | RLambdaRestApi props =>
      is_function st (lambda.node (apigw.handler props))
  | RSecurityGroup props => is_vpc st (ec2.vpc_node (ec2.vpc props))
  | RInstance props =>
      is_vpc st (ec2.vpc_node (ec2.inst_vpc props))
      ∧ is_group st (ec2.node (ec2.securityGroup props))
  | RBucketDeployment props =>
      is_bucket st (s3.node (s3deploy.destinationBucket props))
  | RCfnOutput value => Forall (token_ok st) value
  | RConstruct _ | RStack | RTable _ | RVpc _ | RBucket _ => True
  end.

Definition refs_ok (st : App) : Prop :=
  ∀ p r, (p, r) ∈ constructs st → resource_refs_ok st r.

(** A grant is held by a function, on a table or on a function. *)
Definition grants_ok (st : App) : Prop :=
  ∀ g, g ∈ grants st →
       is_function st (grantee g)
       ∧ (is_table st (resource g) ∨ is_function st (resource g)).

(** An ingress rule belongs to a security group of the tree, and so does a
    security group named as its peer. *)
Definition rules_ok (st : App) : Prop :=
  ∀ r, r ∈ ingress st →
       is_group st (ec2.node (ec2.target r))
       ∧ match ec2.peer r with
         | ec2.peerGroup sg => is_group st (ec2.node sg)
         | ec2.ipv4 _ _ => True
         end.

Definition app_wf (st : App) : Prop :=
  paths_unique st ∧ parents_present st ∧ refs_ok st ∧ grants_ok st
  ∧ rules_ok st.

(** One state of the synthesis continues another: nodes, grants and rules
    are only added, at the end. *)
Definition extends (st st' : App) : Prop :=
  constructs st `prefix_of` constructs st'
  ∧ grants st `prefix_of` grants st'
  ∧ ingress st `prefix_of` ingress st'.

Definition only_appends {A} (m : Synth A) : Prop :=
  ∀ st a st', m st = Some (a, st') → extends st st'.

(** A step of the synthesis keeps a property of the tree. *)
Definition keeps (I : App → Prop) {A} (m : Synth A) : Prop :=
  ∀ st a st', I st → m st = Some (a, st') → I st'.


(** Whether a [BlockPublicAccess] setting blocks public bucket policies:
    [BLOCK_ALL] does, [BLOCK_ACLS_ONLY] blocks ACLs and leaves policies
    alone. *)
Definition blocks_public_policy (b : s3.BlockPublicAccess) : bool :=
  match b with s3.BLOCK_ALL => true | s3.BLOCK_ACLS_ONLY => false end.

(** * Properties *)

(** ** Reading a synthesis backwards *)

Lemma Synth_bind_inv {A B} (m : Synth A) (k : A → Synth B) st b st' :
  (m ≫= k) st = Some (b, st') →
  ∃ a st1, m st = Some (a, st1) ∧ k a st1 = Some (b, st').
Proof.
  unfold mbind, Synth_bind. destruct (m st) as [[a st1]|]; [|discriminate].
  intros H. by exists a, st1.
Qed.

Lemma Synth_ret_inv {A} (a b : A) st st' :
  (mret a : Synth A) st = Some (b, st') → b = a ∧ st' = st.
Proof. unfold mret, Synth_ret. intros [= <- <-]. done. Qed.

Lemma lookup_construct_app p l1 l2 :
  lookup_construct p (l1 ++ l2)%list =
  match lookup_construct p l1 with
  | Some r => Some r
  | None => lookup_construct p l2
  end.
Proof.
  induction l1 as [|[q r] l1 IH]; simpl; [done|].
  destruct (decide (q = p)); done.
Qed.

Lemma lookup_construct_app_None p l1 l2 :
  lookup_construct p (l1 ++ l2)%list = None → lookup_construct p l1 = None.
Proof.
  rewrite lookup_construct_app. destruct (lookup_construct p l1); done.
Qed.

Lemma lookup_construct_Some_elem p r l :
  lookup_construct p l = Some r → (p, r) ∈ l.
Proof.
  induction l as [|[q r'] l IH]; simpl; [done|].
  destruct (decide (q = p)) as [->|].
  - intros [= ->]. left.
  - intros H. right. auto.
Qed.

Lemma lookup_construct_None_elem p r l :
  lookup_construct p l = None → (p, r) ∉ l.
Proof.
  induction l as [|[q r'] l IH]; simpl.
  - intros _. apply not_elem_of_nil.
  - destruct (decide (q = p)) as [->|Hne]; [done|].
    intros H Hin. apply elem_of_cons in Hin as [[= ? ?]|Hin]; [done|].
    by apply IH.
Qed.

Lemma add_child_inv scope id r st p st' :
  add_child scope id r st = Some (p, st') →
  p = (scope ++ [id])%list
  ∧ lookup_construct (scope ++ [id])%list (constructs st) = None
  ∧ st' = {| constructs := (constructs st ++ [((scope ++ [id])%list, r)])%list;
             grants := grants st; ingress := ingress st |}.
Proof.
  unfold add_child.
  destruct (lookup_construct _ _) eqn:E; [discriminate|].
  intros [= <- <-]. done.
Qed.

Lemma add_grant_inv g st u st' :
  add_grant g st = Some (u, st') →
  st' = {| constructs := constructs st; grants := (grants st ++ [g])%list;
           ingress := ingress st |}.
Proof. unfold add_grant. intros [= <- <-]. done. Qed.

Lemma add_ingress_inv r st u st' :
  add_ingress r st = Some (u, st') →
  st' = {| constructs := constructs st; grants := grants st;
           ingress := (ingress st ++ [r])%list |}.
Proof. unfold add_ingress. intros [= <- <-]. done. Qed.

Ltac synth_step :=
  match goal with
  | H : mbind _ _ _ = Some _ |- _ =>
      apply Synth_bind_inv in H as (? & ? & ? & ?)
  | H : mret _ _ = Some _ |- _ =>
      apply Synth_ret_inv in H as [-> ->]
  | H : add_child _ _ _ _ = Some _ |- _ =>
      apply add_child_inv in H as (-> & ? & ->)
  | H : add_grant _ _ = Some _ |- _ =>
      apply add_grant_inv in H as ->
  | H : add_ingress _ _ = Some _ |- _ =>
      apply add_ingress_inv in H as ->
  end.

Ltac synth_inv :=
  unfold new_Stack, new_Construct, new_Table, new_Function, new_LambdaRestApi,
    new_Vpc, new_SecurityGroup, new_Instance, new_Bucket,
    new_BucketDeployment, new_CfnOutput, grantReadWriteData, grantInvoke,
    addIngressRule in *;
  repeat synth_step; simpl in *.

Ltac synth_norm st :=
  unfold dynamodb.tableName, lambda.functionName, ec2.instancePublicIp,
    ec2.instancePrivateIp, s3.bucketWebsiteUrl in *;
  repeat rewrite <- (app_assoc (constructs st));
  repeat rewrite <- (app_assoc (grants st));
  repeat rewrite <- (app_assoc (ingress st));
  simpl.

Lemma created_app st nodes gs rs :
  created st {| constructs := (constructs st ++ nodes)%list;
                grants := gs; ingress := rs |} = nodes.
Proof. unfold created. simpl. by rewrite drop_app_length. Qed.

(** What one construction of [HitCounter] adds. *)
Lemma new_HitCounter_inv scope id props st hc st' :
  hitcounter.new_HitCounter scope id props st = Some (hc, st') →
  let this := (scope ++ [id])%list in
  hc = {| hitcounter.handler := {| lambda.node := this ++ ["HitCounterHandler"] |};
          hitcounter.table := {| dynamodb.node := this ++ ["Hits"] |} |}
  ∧ created st st' =
      [ (this, RConstruct "HitCounter");
        ((this ++ ["Hits"])%list,
         RTable {| dynamodb.partitionKey :=
                     {| dynamodb.name := "path";
                        dynamodb.type := dynamodb.STRING |};
                   dynamodb.sortKey := None;
                   dynamodb.removalPolicy := Some DESTROY;
                   dynamodb.billingMode := Some dynamodb.PAY_PER_REQUEST |});
        ((this ++ ["HitCounterHandler"])%list,
         RFunction
           {| lambda.runtime := lambda.NODEJS_18_X;
              lambda.handler := "hitcounter.handler";
              lambda.code := lambda.fromAsset "lambda";
              lambda.environment :=
                {[ "HITS_TABLE_NAME" := TableNameOf (this ++ ["Hits"]);
                   "DOWNSTREAM_FUNCTION_NAME" :=
                     FunctionNameOf (lambda.node (hitcounter.downstream props))
                ]} |}) ]
  ∧ constructs st' = (constructs st ++ created st st')%list
  ∧ grants st' =
      (grants st ++
       [ {| grantee := this ++ ["HitCounterHandler"];
            resource := this ++ ["Hits"];
            permissions := [ReadData; WriteData] |};
         {| grantee := this ++ ["HitCounterHandler"];
            resource := lambda.node (hitcounter.downstream props);
            permissions := [InvokeFunction] |} ])%list
  ∧ ingress st' = ingress st.
Proof.
  unfold hitcounter.new_HitCounter. intros H. synth_inv. synth_norm st.
  rewrite created_app. done.
Qed.

Lemma path_child_ne (this : ConstructPath) (a b : string) :
  a ≠ b → (this ++ [a])%list ≠ (this ++ [b])%list.
Proof. intros Hne Heq. apply app_inv_head in Heq. congruence. Qed.

Lemma path_grandchild_ne (this : ConstructPath) (a b c : string) :
  ((this ++ [a]) ++ [b])%list ≠ (this ++ [c])%list.
Proof.
  rewrite <- app_assoc. intros Heq. apply app_inv_head in Heq. discriminate.
Qed.

Lemma lookup_construct_None p l :
  (∀ r, (p, r) ∉ l) → lookup_construct p l = None.
Proof.
  intros Hnot. destruct (lookup_construct p l) as [r|] eqn:E; [|done].
  apply lookup_construct_Some_elem in E. by destruct (Hnot r).
Qed.

Lemma path_ne_child (this : ConstructPath) (a : string) :
  this ≠ (this ++ [a])%list.
Proof.
  intros Heq. apply (f_equal length) in Heq.
  rewrite length_app in Heq. simpl in Heq. lia.
Qed.

(** The constructor does return: in a tree with nothing at or below
    [scope/id] a [HitCounter] is built. *)
Lemma new_HitCounter_succeeds scope id props st :
  (∀ q r, (q, r) ∈ constructs st → ¬ (scope ++ [id])%list `prefix_of` q) →
  is_Some (hitcounter.new_HitCounter scope id props st).
Proof.
  intros Hfresh.
  assert (Hbelow : ∀ k, lookup_construct ((scope ++ [id]) ++ k)%list
                          (constructs st) = None).
  { intros k. apply lookup_construct_None. intros r Hin.
    apply (Hfresh _ _ Hin). by exists k. }
  pose proof (Hbelow []) as H0. rewrite app_nil_r in H0.
  unfold hitcounter.new_HitCounter, new_Construct, new_Table, new_Function,
    grantReadWriteData, grantInvoke.
  unfold mbind, Synth_bind, add_child, add_grant, mret, Synth_ret. simpl.
  rewrite H0. simpl.
  rewrite lookup_construct_app, Hbelow. simpl.
  destruct (decide (_ = _)) as [Heq|_];
    [by apply path_ne_child in Heq|]. simpl.
  rewrite !lookup_construct_app, Hbelow. simpl.
  destruct (decide (_ = _)) as [Heq|_];
    [by apply path_ne_child in Heq|].
  destruct (decide (_ = _)) as [Heq|_];
    [by apply path_child_ne in Heq|]. simpl.
  by eexists.
Qed.

(** What each stack adds to the tree it is instantiated in. *)
Lemma wrapped_stack_inv scope id st this st' :
  wrapped.HitCounterAppStack scope id st = Some (this, st') →
  let hc := (this ++ ["HelloHitCounter"])%list in
  this = (scope ++ [id])%list
  ∧ st' =
    {| constructs := (constructs st ++
         [ (this, RStack);
           ((this ++ ["HelloHandler"])%list,
            RFunction
              {| lambda.runtime := lambda.NODEJS_18_X;
                 lambda.code := lambda.fromInline wrapped.helloFn_src;
                 lambda.handler := "index.handler";
                 lambda.environment := ∅ |});
           (hc, RConstruct "HitCounter");
           ((hc ++ ["Hits"])%list,
            RTable
              {| dynamodb.partitionKey :=
                   {| dynamodb.name := "path";
                      dynamodb.type := dynamodb.STRING |};
                 dynamodb.sortKey := None;
                 dynamodb.removalPolicy := Some DESTROY;
                 dynamodb.billingMode := Some dynamodb.PAY_PER_REQUEST |});
           ((hc ++ ["HitCounterHandler"])%list,
            RFunction
              {| lambda.runtime := lambda.NODEJS_18_X;
                 lambda.handler := "hitcounter.handler";
                 lambda.code := lambda.fromAsset "lambda";
                 lambda.environment :=
                   {[ "HITS_TABLE_NAME" := TableNameOf (hc ++ ["Hits"]);
                      "DOWNSTREAM_FUNCTION_NAME" :=
                        FunctionNameOf (this ++ ["HelloHandler"]) ]} |});
           ((this ++ ["Endpoint"])%list,
            RLambdaRestApi
              {| apigw.handler :=
                   {| lambda.node := hc ++ ["HitCounterHandler"] |};
                 apigw.proxy := None |}) ])%list;
       grants := (grants st ++
         [ {| grantee := hc ++ ["HitCounterHandler"];
              resource := hc ++ ["Hits"];
              permissions := [ReadData; WriteData] |};
           {| grantee := hc ++ ["HitCounterHandler"];
              resource := this ++ ["HelloHandler"];
              permissions := [InvokeFunction] |} ])%list;
       ingress := ingress st |}.
Proof.
  unfold wrapped.HitCounterAppStack, hitcounter.new_HitCounter. intros H.
  synth_inv. synth_norm st. done.
Qed.

Lemma standalone_stack_inv scope id st this st' :
  standalone.HitCounterAppStack scope id st = Some (this, st') →
  this = (scope ++ [id])%list
  ∧ st' =
    {| constructs := (constructs st ++
         [ (this, RStack);
           ((this ++ ["Hits"])%list,
            RTable
              {| dynamodb.partitionKey :=
                   {| dynamodb.name := "path";
                      dynamodb.type := dynamodb.STRING |};
                 dynamodb.sortKey := None;
                 dynamodb.removalPolicy := Some DESTROY;
                 dynamodb.billingMode := None |});
           ((this ++ ["HitCounterHandler"])%list,
            RFunction
              {| lambda.runtime := lambda.NODEJS_18_X;
                 lambda.code := lambda.fromAsset "lambda";
                 lambda.handler := "hitcounter.handler";
                 lambda.environment :=
                   {[ "HITS_TABLE_NAME" := TableNameOf (this ++ ["Hits"]) ]}
              |});
           ((this ++ ["Endpoint"])%list,
            RLambdaRestApi
              {| apigw.handler :=
                   {| lambda.node := this ++ ["HitCounterHandler"] |};
                 apigw.proxy := None |}) ])%list;
       grants := (grants st ++
         [ {| grantee := this ++ ["HitCounterHandler"];
              resource := this ++ ["Hits"];
              permissions := [ReadData; WriteData] |} ])%list;
       ingress := ingress st |}.
Proof.
  unfold standalone.HitCounterAppStack. intros H.
  synth_inv. synth_norm st. done.
Qed.

Lemma Ec2ClassicStack_inv scope id st this st' :
  Ec2ClassicStack scope id st = Some (this, st') →
  let vpc := {| ec2.vpc_node := this ++ ["MyLabVPC"] |} in
  let frontendSG := {| ec2.node := this ++ ["FrontendSG"] |} in
  let backendSG := {| ec2.node := this ++ ["BackendSG"] |} in
  this = (scope ++ [id])%list
  ∧ created st st' =
      [ (this, RStack);
        ((this ++ ["MyLabVPC"])%list,
         RVpc {| ec2.ipAddresses := "10.0.0.0/16";
                 ec2.maxAzs := 2;
                 ec2.subnetConfiguration :=
                   [{| ec2.cidrMask := 24; ec2.name := "PublicSubnet";
                       ec2.subnetType := ec2.PUBLIC |}];
                 ec2.natGateways := 0 |});
        ((this ++ ["FrontendSG"])%list,
         RSecurityGroup
           {| ec2.vpc := vpc;
              ec2.description := "Allow HTTP access from world" |});
        ((this ++ ["BackendSG"])%list,
         RSecurityGroup
           {| ec2.vpc := vpc;
              ec2.description := "Allow access only from Frontend" |});
        ((this ++ ["BackendServer"])%list,
         RInstance
           {| ec2.inst_vpc := vpc;
              ec2.vpcSubnets := ec2.PUBLIC;
              ec2.instanceType := (ec2.T2, ec2.MICRO);
              ec2.machineImage := ec2.AMAZON_LINUX_2023;
              ec2.securityGroup := backendSG |});
        ((this ++ ["FrontendServer"])%list,
         RInstance
           {| ec2.inst_vpc := vpc;
              ec2.vpcSubnets := ec2.PUBLIC;
              ec2.instanceType := (ec2.T2, ec2.MICRO);
              ec2.machineImage := ec2.AMAZON_LINUX_2023;
              ec2.securityGroup := frontendSG |});
        ((this ++ ["FrontendURL"])%list,
         RCfnOutput [Literal "http://";
                     InstancePublicIpOf (this ++ ["FrontendServer"])]);
        ((this ++ ["BackendIP"])%list,
         RCfnOutput [InstancePrivateIpOf (this ++ ["BackendServer"])]) ]
  ∧ lookup_construct (this ++ ["FrontendSG"])%list (constructs st) = None
  ∧ lookup_construct (this ++ ["BackendSG"])%list (constructs st) = None
  ∧ grants st' = grants st
  ∧ ingress st' =
      (ingress st ++
       [ {| ec2.target := frontendSG; ec2.peer := ec2.anyIpv4;
            ec2.connection := ec2.tcp 80;
            ec2.rule_description := "Allow HTTP from anywhere" |};
         {| ec2.target := backendSG; ec2.peer := ec2.peerGroup frontendSG;
            ec2.connection := ec2.tcp 3000;
            ec2.rule_description := "Allow Node traffic from Frontend" |} ])%list.
Proof.
  unfold Ec2ClassicStack. intros H.
  synth_inv. synth_norm st. rewrite created_app.
  repeat match goal with
  | H : lookup_construct _ (_ ++ _)%list = None |- _ =>
      apply lookup_construct_app_None in H
  end.
  done.
Qed.

Lemma MyCdkAppStack_inv scope id st this st' :
  MyCdkAppStack scope id st = Some (this, st') →
  this = (scope ++ [id])%list
  ∧ created st st' =
      [ (this, RStack);
        ((this ++ ["MyFirstBucket"])%list,
         RBucket {| s3.versioned := true;
                    s3.removalPolicy := DESTROY;
                    s3.autoDeleteObjects := true;
                    s3.websiteIndexDocument := "index.html";
                    s3.publicReadAccess := true;
                    s3.blockPublicAccess := s3.BLOCK_ACLS_ONLY |});
        ((this ++ ["DeployWebsite"])%list,
         RBucketDeployment
           {| s3deploy.sources := [s3deploy.asset "./website"];
              s3deploy.destinationBucket :=
                {| s3.node := this ++ ["MyFirstBucket"] |} |});
        ((this ++ ["WebsiteURL"])%list,
         RCfnOutput [BucketWebsiteUrlOf (this ++ ["MyFirstBucket"])]) ]
  ∧ grants st' = grants st
  ∧ ingress st' = ingress st.
Proof.
  unfold MyCdkAppStack. intros H.
  synth_inv. synth_norm st. rewrite created_app. done.
Qed.

Ltac elem_cases H :=
  repeat (apply elem_of_cons in H as [H|H]);
  [..|by apply elem_of_nil in H].

(** ** The tables *)

(** C6: every counter table the repository constructs, through the
    [HitCounter] construct or directly in a stack, has the partition key
    [path] of type string and declares no other key attribute (no sort
    key). *)
Theorem counter_tables_keyed_by_path :
  (∀ scope id hprops st hc st' p props,
     hitcounter.new_HitCounter scope id hprops st = Some (hc, st') →
     (p, RTable props) ∈ created st st' →
     dynamodb.partitionKey props =
       {| dynamodb.name := "path"; dynamodb.type := dynamodb.STRING |}
     ∧ dynamodb.sortKey props = None)
  ∧ (∀ mk scope id st this st' p props,
       mk ∈ repository_stacks →
       mk scope id st = Some (this, st') →
       (p, RTable props) ∈ created st st' →
       dynamodb.partitionKey props =
         {| dynamodb.name := "path"; dynamodb.type := dynamodb.STRING |}
       ∧ dynamodb.sortKey props = None).
Proof.
  split.
  - intros scope id hprops st hc st' p props Hrun Hin.
    apply new_HitCounter_inv in Hrun as (_ & Hc & _).
    rewrite Hc in Hin. elem_cases Hin; by simplify_eq.
  - intros mk scope id st this st' p props Hmk Hrun Hin.
    elem_cases Hmk; subst mk.
    + apply wrapped_stack_inv in Hrun as (-> & ->).
      rewrite created_app in Hin. elem_cases Hin; by simplify_eq.
    + apply standalone_stack_inv in Hrun as (-> & ->).
      rewrite created_app in Hin. elem_cases Hin; by simplify_eq.
    + apply Ec2ClassicStack_inv in Hrun as (-> & Hc & _).
      rewrite Hc in Hin. elem_cases Hin; by simplify_eq.
    + apply MyCdkAppStack_inv in Hrun as (-> & Hc & _).
      rewrite Hc in Hin. elem_cases Hin; by simplify_eq.
Qed.

Lemma counter_tables_keyed_by_path_witness :
  ∃ this st' p props,
    standalone.HitCounterAppStack [] "HitCounterAppStack" empty_app
      = Some (this, st')
    ∧ (p, RTable props) ∈ created empty_app st'
    ∧ dynamodb.partitionKey props =
        {| dynamodb.name := "path"; dynamodb.type := dynamodb.STRING |}
    ∧ dynamodb.sortKey props = None.
Proof.
  eexists _, _, _, _.
  split; [vm_compute; reflexivity|].
  split; [vm_compute; apply list_elem_of_further, list_elem_of_here|].
  eapply (proj2 counter_tables_keyed_by_path standalone.HitCounterAppStack
            [] "HitCounterAppStack" empty_app).
  - apply list_elem_of_further, list_elem_of_here.
  - vm_compute; reflexivity.
  - vm_compute; apply list_elem_of_further, list_elem_of_here.
Defined.

(** ** The public entry point *)

(** C4: in both stacks that declare the counting function, a
    [LambdaRestApi] is declared, and every request, whatever its method and
    path, is answered by a function of the stack that runs the counting code;
    that function is not the downstream of any function of the stack, so the
    business function is never the one the API calls. *)
Theorem api_routes_to_forwarder mk scope id st this st' :
  mk ∈ forwarder_stacks →
  mk scope id st = Some (this, st') →
  (∃ p props, (p, RLambdaRestApi props) ∈ created st st')
  ∧ (∀ p props (method path : string),
       (p, RLambdaRestApi props) ∈ created st st' →
       ∃ f fprops,
         LambdaRestApi_route props method path = Some f
         ∧ (lambda.node f, RFunction fprops) ∈ created st st'
         ∧ is_forwarder fprops = true
         ∧ ∀ g gprops,
             (g, RFunction gprops) ∈ created st st' →
             lambda.environment gprops !! "DOWNSTREAM_FUNCTION_NAME"
               ≠ Some (FunctionNameOf (lambda.node f))).
Proof.
  intros Hmk Hrun. elem_cases Hmk; subst mk.
  - apply wrapped_stack_inv in Hrun as (-> & ->). rewrite created_app.
    split.
    { eexists _, _. do 5 apply list_elem_of_further. apply list_elem_of_here. }
    intros p props method path Hin. elem_cases Hin; simplify_eq.
    eexists _, _. split; [reflexivity|]. split.
    { do 4 apply list_elem_of_further. apply list_elem_of_here. }
    split; [reflexivity|].
    intros g gprops Hg. elem_cases Hg; simplify_eq; simpl.
    + by rewrite lookup_empty.
    + rewrite lookup_insert_ne by done. rewrite lookup_singleton_eq.
      intros [= Heq]. symmetry in Heq. by apply path_grandchild_ne in Heq.
  - apply standalone_stack_inv in Hrun as (-> & ->). rewrite created_app.
    split.
    { eexists _, _. do 3 apply list_elem_of_further. apply list_elem_of_here. }
    intros p props method path Hin. elem_cases Hin; simplify_eq.
    eexists _, _. split; [reflexivity|]. split.
    { do 2 apply list_elem_of_further. apply list_elem_of_here. }
    split; [reflexivity|].
    intros g gprops Hg. elem_cases Hg; simplify_eq; simpl.
    by rewrite lookup_singleton_ne.
Qed.

Lemma api_routes_to_forwarder_witness :
  ∃ st',
    wrapped.HitCounterAppStack [] "HitCounterAppStack" empty_app
      = Some (["HitCounterAppStack"], st')
    ∧ (["HitCounterAppStack"; "Endpoint"],
       RLambdaRestApi
         {| apigw.handler :=
              {| lambda.node :=
                   ["HitCounterAppStack"; "HelloHitCounter";
                    "HitCounterHandler"] |};
            apigw.proxy := None |}) ∈ created empty_app st'
    ∧ ∃ f fprops,
        LambdaRestApi_route
          {| apigw.handler :=
               {| lambda.node :=
                    ["HitCounterAppStack"; "HelloHitCounter";
                     "HitCounterHandler"] |};
             apigw.proxy := None |} "GET" "/hello" = Some f
        ∧ (lambda.node f, RFunction fprops) ∈ created empty_app st'
        ∧ is_forwarder fprops = true
        ∧ ∀ g gprops,
            (g, RFunction gprops) ∈ created empty_app st' →
            lambda.environment gprops !! "DOWNSTREAM_FUNCTION_NAME"
              ≠ Some (FunctionNameOf (lambda.node f)).
Proof.
  assert (Hmk : wrapped.HitCounterAppStack ∈ forwarder_stacks)
    by apply list_elem_of_here.
  eexists.
  split; [vm_compute; reflexivity|].
  split.
  { vm_compute. do 5 apply list_elem_of_further. apply list_elem_of_here. }
  match goal with
  | |- context [created empty_app ?s] =>
      assert (Hrun : wrapped.HitCounterAppStack [] "HitCounterAppStack"
                       empty_app = Some (["HitCounterAppStack"], s))
        by (vm_compute; reflexivity)
  end.
  apply (proj2 (api_routes_to_forwarder _ _ _ _ _ _ Hmk Hrun)
           ["HitCounterAppStack"; "Endpoint"]).
  vm_compute. do 5 apply list_elem_of_further. apply list_elem_of_here.
Defined.

(** ** Configuration of the counting function *)

(** The stack of hit-counter-app declares the counting function with
    [HITS_TABLE_NAME] only: no downstream identifier is among its
    environment variables. *)
Lemma standalone_stack_names_no_downstream :
  ∃ st' p props,
    standalone.HitCounterAppStack [] "HitCounterAppStack" empty_app
      = Some (["HitCounterAppStack"], st')
    ∧ (p, RFunction props) ∈ created empty_app st'
    ∧ is_forwarder props = true
    ∧ lambda.environment props !! "DOWNSTREAM_FUNCTION_NAME" = None
    ∧ ¬ supplies_both props.
Proof.
  eexists _, _, _.
  split; [vm_compute; reflexivity|].
  split.
  { vm_compute. do 2 apply list_elem_of_further. apply list_elem_of_here. }
  split; [vm_compute; reflexivity|].
  split; [vm_compute; reflexivity|].
  intros [_ [f Hf]]. vm_compute in Hf. discriminate.
Qed.

(** C5 (amended): in every stack that declares the counting function its
    [HITS_TABLE_NAME] is the name token of a table created by that stack,
    and no environment value is a literal; whenever a
    [DOWNSTREAM_FUNCTION_NAME] is present it is the name token of a function
    created by that stack.  The [HitCounter] construct supplies both names,
    from the table it creates and from [props.downstream]; so does the
    stack that wraps [helloFn] with it, whose counting function is given the
    name token of [helloFn].  The stack of hit-counter-app, which declares no
    downstream function, supplies no [DOWNSTREAM_FUNCTION_NAME].  Each of the
    two stacks does declare a counting function. *)
Theorem forwarder_config_from_resources :
  (∀ mk scope id st this st' p props,
     mk ∈ forwarder_stacks →
     mk scope id st = Some (this, st') →
     (p, RFunction props) ∈ created st st' →
     is_forwarder props = true →
     (∃ t tprops,
        lambda.environment props !! "HITS_TABLE_NAME" = Some (TableNameOf t)
        ∧ (t, RTable tprops) ∈ created st st')
     ∧ (∀ v, lambda.environment props !! "DOWNSTREAM_FUNCTION_NAME" = Some v →
             ∃ f fprops, v = FunctionNameOf f
                         ∧ (f, RFunction fprops) ∈ created st st')
     ∧ (∀ k v, lambda.environment props !! k = Some v →
               is_literal v = false))
  ∧ (∀ scope id hprops st hc st',
       hitcounter.new_HitCounter scope id hprops st = Some (hc, st') →
       ∃ fprops tprops,
         (lambda.node (hitcounter.handler hc), RFunction fprops)
           ∈ created st st'
         ∧ (dynamodb.node (hitcounter.table hc), RTable tprops)
             ∈ created st st'
         ∧ is_forwarder fprops = true
         ∧ lambda.environment fprops !! "HITS_TABLE_NAME"
             = Some (dynamodb.tableName (hitcounter.table hc))
         ∧ lambda.environment fprops !! "DOWNSTREAM_FUNCTION_NAME"
             = Some (lambda.functionName (hitcounter.downstream hprops)))
  ∧ (∀ scope id st this st' p props,
       standalone.HitCounterAppStack scope id st = Some (this, st') →
       (p, RFunction props) ∈ created st st' →
       lambda.environment props !! "DOWNSTREAM_FUNCTION_NAME" = None)
  ∧ (∀ scope id st this st' p props,
       wrapped.HitCounterAppStack scope id st = Some (this, st') →
       (p, RFunction props) ∈ created st st' →
       is_forwarder props = true →
       lambda.environment props !! "DOWNSTREAM_FUNCTION_NAME"
         = Some (FunctionNameOf (this ++ ["HelloHandler"]))
       ∧ ∃ hprops,
           ((this ++ ["HelloHandler"])%list, RFunction hprops)
             ∈ created st st'
           ∧ lambda.code hprops = lambda.fromInline wrapped.helloFn_src)
  ∧ (∀ mk scope id st this st',
       mk ∈ forwarder_stacks →
       mk scope id st = Some (this, st') →
       ∃ p props, (p, RFunction props) ∈ created st st'
                  ∧ is_forwarder props = true).
Proof.
  split; [|split; [|split; [|split]]].
  - intros mk scope id st this st' p props Hmk Hrun Hin Hfw.
    elem_cases Hmk; subst mk.
    + apply wrapped_stack_inv in Hrun as (-> & ->).
      rewrite created_app in Hin |- *.
      elem_cases Hin; simplify_eq. simpl. split; [|split].
      * eexists _, _. rewrite lookup_insert_eq. split; [done|].
        do 3 apply list_elem_of_further. apply list_elem_of_here.
      * intros v. rewrite lookup_insert_ne by done.
        rewrite lookup_singleton_eq. intros [= <-].
        eexists _, _. split; [done|].
        apply list_elem_of_further, list_elem_of_here.
      * intros k v Hk. apply lookup_insert_Some in Hk as [[_ <-]|[_ Hk]];
          [done|].
        apply lookup_singleton_Some in Hk as [_ <-]. done.
    + apply standalone_stack_inv in Hrun as (-> & ->).
      rewrite created_app in Hin |- *.
      elem_cases Hin; simplify_eq. simpl. split; [|split].
      * eexists _, _. rewrite lookup_singleton_eq. split; [done|].
        apply list_elem_of_further, list_elem_of_here.
      * intros v. by rewrite lookup_singleton_ne.
      * intros k v Hk. apply lookup_singleton_Some in Hk as [_ <-]. done.
  - intros scope id hprops st hc st' Hrun.
    apply new_HitCounter_inv in Hrun as (-> & -> & _). simpl.
    eexists _, _. split.
    { do 2 apply list_elem_of_further. apply list_elem_of_here. }
    split. { apply list_elem_of_further, list_elem_of_here. }
    split; [done|]. simpl. rewrite lookup_insert_eq.
    rewrite lookup_insert_ne by done. by rewrite lookup_singleton_eq.
  - intros scope id st this st' p props Hrun Hin.
    apply standalone_stack_inv in Hrun as (-> & ->).
    rewrite created_app in Hin.
    elem_cases Hin; simplify_eq. simpl. by rewrite lookup_singleton_ne.
  - intros scope id st this st' p props Hrun Hin Hfw.
    apply wrapped_stack_inv in Hrun as (-> & ->).
    rewrite created_app in Hin |- *.
    elem_cases Hin; simplify_eq. simpl. split.
    + rewrite lookup_insert_ne by done. by rewrite lookup_singleton_eq.
    + eexists. split; [apply list_elem_of_further, list_elem_of_here|].
      reflexivity.
  - intros mk scope id st this st' Hmk Hrun. elem_cases Hmk; subst mk.
    + apply wrapped_stack_inv in Hrun as (-> & ->). rewrite created_app.
      eexists _, _. split.
      { do 4 apply list_elem_of_further. apply list_elem_of_here. }
      reflexivity.
    + apply standalone_stack_inv in Hrun as (-> & ->). rewrite created_app.
      eexists _, _. split.
      { do 2 apply list_elem_of_further. apply list_elem_of_here. }
      reflexivity.
Qed.

Lemma forwarder_config_from_resources_witness :
  ∃ st' props,
    wrapped.HitCounterAppStack [] "HitCounterAppStack" empty_app
      = Some (["HitCounterAppStack"], st')
    ∧ (["HitCounterAppStack"; "HelloHitCounter"; "HitCounterHandler"],
       RFunction props) ∈ created empty_app st'
    ∧ is_forwarder props = true
    ∧ (∃ t tprops,
         lambda.environment props !! "HITS_TABLE_NAME" = Some (TableNameOf t)
         ∧ (t, RTable tprops) ∈ created empty_app st')
    ∧ (∀ v, lambda.environment props !! "DOWNSTREAM_FUNCTION_NAME" = Some v →
            ∃ f fprops, v = FunctionNameOf f
                        ∧ (f, RFunction fprops) ∈ created empty_app st')
    ∧ (∀ k v, lambda.environment props !! k = Some v → is_literal v = false).
Proof.
  assert (Hmk : wrapped.HitCounterAppStack ∈ forwarder_stacks)
    by apply list_elem_of_here.
  eexists _, _.
  split; [vm_compute; reflexivity|].
  split.
  { vm_compute. do 4 apply list_elem_of_further. apply list_elem_of_here. }
  split; [vm_compute; reflexivity|].
  match goal with
  | |- context [created empty_app ?s] =>
      assert (Hrun : wrapped.HitCounterAppStack [] "HitCounterAppStack"
                       empty_app = Some (["HitCounterAppStack"], s))
        by (vm_compute; reflexivity)
  end.
  apply (proj1 forwarder_config_from_resources _ _ _ _ _ _
           ["HitCounterAppStack"; "HelloHitCounter"; "HitCounterHandler"]
           _ Hmk Hrun).
  - vm_compute. do 4 apply list_elem_of_further. apply list_elem_of_here.
  - vm_compute; reflexivity.
Defined.

(** ** Permissions of the HitCounter construct *)

(** C9: whenever the [HitCounter] constructor returns an instance, its
    handler holds read and write access to the table the construct created
    and invoke permission on the downstream function of its props; and every
    [HitCounter] instance in a stack of the repository has its handler
    holding these grants, the invoke permission being on the function its
    configuration names as downstream. *)
Theorem HitCounter_grants :
  (∀ scope id props st hc st',
     hitcounter.new_HitCounter scope id props st = Some (hc, st') →
     let fn := lambda.node (hitcounter.handler hc) in
     let tbl := dynamodb.node (hitcounter.table hc) in
     (∃ fprops, (fn, RFunction fprops) ∈ created st st')
     ∧ (∃ tprops, (tbl, RTable tprops) ∈ created st st')
     ∧ permitted st' fn tbl ReadData
     ∧ permitted st' fn tbl WriteData
     ∧ permitted st' fn (lambda.node (hitcounter.downstream props))
         InvokeFunction)
  ∧ (∀ mk scope id st this st' p,
       mk ∈ repository_stacks →
       mk scope id st = Some (this, st') →
       (p, RConstruct "HitCounter") ∈ created st st' →
       let fn := (p ++ ["HitCounterHandler"])%list in
       let tbl := (p ++ ["Hits"])%list in
       ∃ fprops tprops d,
         (fn, RFunction fprops) ∈ created st st'
         ∧ (tbl, RTable tprops) ∈ created st st'
         ∧ lambda.environment fprops !! "DOWNSTREAM_FUNCTION_NAME"
             = Some (FunctionNameOf d)
         ∧ permitted st' fn tbl ReadData
         ∧ permitted st' fn tbl WriteData
         ∧ permitted st' fn d InvokeFunction).
Proof.
  split.
  - intros scope id props st hc st' Hrun.
    apply new_HitCounter_inv in Hrun as (-> & -> & _ & Hg & _). simpl.
    split.
    { eexists. do 2 apply list_elem_of_further. apply list_elem_of_here. }
    split.
    { eexists. apply list_elem_of_further, list_elem_of_here. }
    unfold permitted. rewrite Hg.
    split; [|split].
    + eexists. split.
      { apply elem_of_app. right. apply list_elem_of_here. }
      simpl. repeat split. apply list_elem_of_here.
    + eexists. split.
      { apply elem_of_app. right. apply list_elem_of_here. }
      simpl. repeat split. apply list_elem_of_further, list_elem_of_here.
    + eexists. split.
      { apply elem_of_app. right.
        apply list_elem_of_further, list_elem_of_here. }
      simpl. repeat split. apply list_elem_of_here.
  - intros mk scope id st this st' p Hmk Hrun Hin.
    elem_cases Hmk; subst mk.
    + apply wrapped_stack_inv in Hrun as (-> & ->).
      rewrite created_app in Hin |- *.
      elem_cases Hin; simplify_eq. simpl.
      eexists _, _, _. split.
      { do 4 apply list_elem_of_further. apply list_elem_of_here. }
      split.
      { do 3 apply list_elem_of_further. apply list_elem_of_here. }
      split.
      { simpl. rewrite lookup_insert_ne by done.
        by rewrite lookup_singleton_eq. }
      unfold permitted. simpl.
      split; [|split].
      * eexists. split.
        { apply elem_of_app. right. apply list_elem_of_here. }
        simpl. repeat split. apply list_elem_of_here.
      * eexists. split.
        { apply elem_of_app. right. apply list_elem_of_here. }
        simpl. repeat split. apply list_elem_of_further, list_elem_of_here.
      * eexists. split.
        { apply elem_of_app. right.
          apply list_elem_of_further, list_elem_of_here. }
        simpl. repeat split. apply list_elem_of_here.
    + apply standalone_stack_inv in Hrun as (-> & ->).
      rewrite created_app in Hin. elem_cases Hin; simplify_eq.
    + apply Ec2ClassicStack_inv in Hrun as (-> & Hc & _).
      rewrite Hc in Hin. elem_cases Hin; simplify_eq.
    + apply MyCdkAppStack_inv in Hrun as (-> & Hc & _).
      rewrite Hc in Hin. elem_cases Hin; simplify_eq.
Qed.

Lemma HitCounter_grants_witness :
  ∃ hc st',
    hitcounter.new_HitCounter ["App"] "Counter"
      {| hitcounter.downstream := {| lambda.node := ["App"; "Hello"] |} |}
      empty_app = Some (hc, st')
    ∧ permitted st' (lambda.node (hitcounter.handler hc))
        (dynamodb.node (hitcounter.table hc)) ReadData
    ∧ permitted st' (lambda.node (hitcounter.handler hc))
        (dynamodb.node (hitcounter.table hc)) WriteData
    ∧ permitted st' (lambda.node (hitcounter.handler hc))
        ["App"; "Hello"] InvokeFunction.
Proof.
  eexists _, _.
  split; [vm_compute; reflexivity|].
  match goal with
  | |- context [permitted ?s _ _ ReadData] =>
      assert (Hrun : hitcounter.new_HitCounter ["App"] "Counter"
                {| hitcounter.downstream :=
                     {| lambda.node := ["App"; "Hello"] |} |}
                empty_app = Some (_, s))
        by (vm_compute; reflexivity)
  end.
  destruct (proj1 HitCounter_grants _ _ _ _ _ _ Hrun)
    as (_ & _ & Hr & Hw & Hi).
  split; [exact Hr|]. split; [exact Hw|exact Hi].
Defined.

(** ** The two-tier network *)

Lemma no_rules_for_fresh_group st p :
  ingress_wf st →
  lookup_construct p (constructs st) = None →
  ∀ r, r ∈ ingress st → ec2.target r ≠ {| ec2.node := p |}.
Proof.
  intros Hwf Hnone r Hr Heq. destruct (Hwf r Hr) as [x Hx].
  rewrite Heq in Hx. simpl in Hx. congruence.
Qed.

Lemma admits_old_rules_fresh_group st p pkt :
  ingress_wf st →
  lookup_construct p (constructs st) = None →
  existsb (λ r, rule_admits {| ec2.node := p |} r pkt) (ingress st) = false.
Proof.
  intros Hwf Hnone.
  pose proof (no_rules_for_fresh_group st p Hwf Hnone) as Hne.
  induction (ingress st) as [|r rs IH]; simpl; [done|].
  rewrite IH by (intros r' Hr'; apply Hne; by right).
  unfold rule_admits. rewrite bool_decide_eq_false_2; [done|].
  apply Hne. left.
Qed.

Lemma rules_of_old_fresh_group st p :
  ingress_wf st →
  lookup_construct p (constructs st) = None →
  filter (λ r, ec2.target r = {| ec2.node := p |}) (ingress st) = [].
Proof.
  intros Hwf Hnone.
  pose proof (no_rules_for_fresh_group st p Hwf Hnone) as Hne.
  induction (ingress st) as [|r rs IH]; [done|].
  rewrite filter_cons_False by (apply Hne; left).
  apply IH. intros r' Hr'. apply Hne. by right.
Qed.

Lemma any_ipv4_contains addr :
  (0 ≤ addr < 2 ^ 32)%Z → cidr_contains 0 0 addr = true.
Proof.
  intros Hr. unfold cidr_contains.
  rewrite Z.shiftr_0_l, Z.sub_0_r.
  rewrite Z.shiftr_div_pow2 by lia. rewrite Z.div_small by lia. done.
Qed.

(** C10: in the EC2 stack the frontend group lets in TCP port 80 from every
    IPv4 address; the backend group has exactly one ingress rule, TCP port
    3000 with the frontend group as its peer, so that it lets a packet in
    exactly when the packet is TCP to port 3000 and its sender is a member of
    the frontend group, whatever the sender's address.  The two groups are
    the ones the frontend and backend instances are placed in. *)
Theorem two_tier_ingress scope id st this st' :
  Ec2ClassicStack scope id st = Some (this, st') →
  ingress_wf st →
  let frontendSG := {| ec2.node := this ++ ["FrontendSG"] |} in
  let backendSG := {| ec2.node := this ++ ["BackendSG"] |} in
  (∃ fprops bprops,
     ((this ++ ["FrontendServer"])%list, RInstance fprops) ∈ created st st'
     ∧ ec2.securityGroup fprops = frontendSG
     ∧ ((this ++ ["BackendServer"])%list, RInstance bprops) ∈ created st st'
     ∧ ec2.securityGroup bprops = backendSG)
  ∧ (∀ pkt, (0 ≤ src_addr pkt < 2 ^ 32)%Z →
            pkt_protocol pkt = ec2.TCP → dst_port pkt = 80%Z →
            admits st' frontendSG pkt = true)
  ∧ rules_of st' backendSG =
      [ {| ec2.target := backendSG; ec2.peer := ec2.peerGroup frontendSG;
           ec2.connection := ec2.tcp 3000;
           ec2.rule_description := "Allow Node traffic from Frontend" |} ]
  ∧ (∀ pkt, admits st' backendSG pkt = true ↔
            pkt_protocol pkt = ec2.TCP ∧ dst_port pkt = 3000%Z
            ∧ frontendSG ∈ src_groups pkt).
Proof.
  intros Hrun Hwf.
  apply Ec2ClassicStack_inv in Hrun as (-> & Hc & Hf & Hb & _ & Hi).
  simpl. rewrite Hc.
  assert (Hne : ({| ec2.node := (scope ++ [id]) ++ ["FrontendSG"] |}
                  : ec2.SecurityGroup)
                ≠ {| ec2.node := (scope ++ [id]) ++ ["BackendSG"] |}).
  { intros [= Heq]. by apply path_child_ne in Heq. }
  split; [|split; [|split]].
  - eexists _, _. split.
    { do 5 apply list_elem_of_further. apply list_elem_of_here. }
    split; [done|]. split.
    { do 4 apply list_elem_of_further. apply list_elem_of_here. }
    reflexivity.
  - intros pkt Haddr Hproto Hport. unfold admits. rewrite Hi.
    rewrite existsb_app. apply orb_true_iff. right. simpl.
    apply orb_true_iff. left. unfold rule_admits. simpl.
    rewrite bool_decide_eq_true_2 by done.
    rewrite any_ipv4_contains by done.
    unfold port_admits. simpl. rewrite Hproto, Hport. done.
  - unfold rules_of. rewrite Hi, filter_app.
    rewrite rules_of_old_fresh_group by done. simpl.
    rewrite filter_cons_False by done.
    rewrite filter_cons_True by done. done.
  - intros pkt. unfold admits. rewrite Hi, existsb_app.
    rewrite admits_old_rules_fresh_group by done. simpl.
    unfold rule_admits at 1. simpl.
    rewrite (bool_decide_eq_false_2 _ Hne). simpl.
    rewrite orb_false_r. unfold rule_admits, port_admits. simpl.
    rewrite bool_decide_eq_true_2 by done. simpl.
    rewrite !andb_true_iff, !bool_decide_eq_true, !Z.leb_le.
    split.
    + intros (Hg & (Hp & H1) & H2). split; [done|]. split; [lia|done].
    + intros (Hp & Hport & Hg). rewrite Hport. repeat split; [done|done|lia|lia].
Qed.

Lemma two_tier_ingress_witness :
  ∃ st',
    Ec2ClassicStack [] "Ec2ClassicStack" empty_app
      = Some (["Ec2ClassicStack"], st')
    ∧ ingress_wf empty_app
    ∧ rules_of st' {| ec2.node := ["Ec2ClassicStack"; "BackendSG"] |} =
        [ {| ec2.target := {| ec2.node := ["Ec2ClassicStack"; "BackendSG"] |};
             ec2.peer :=
               ec2.peerGroup
                 {| ec2.node := ["Ec2ClassicStack"; "FrontendSG"] |};
             ec2.connection := ec2.tcp 3000;
             ec2.rule_description := "Allow Node traffic from Frontend" |} ]
    ∧ ∀ pkt,
        admits st' {| ec2.node := ["Ec2ClassicStack"; "BackendSG"] |} pkt
          = true
        ↔ pkt_protocol pkt = ec2.TCP ∧ dst_port pkt = 3000%Z
          ∧ {| ec2.node := ["Ec2ClassicStack"; "FrontendSG"] |}
              ∈ src_groups pkt.
Proof.
  assert (Hwf : ingress_wf empty_app).
  { intros r Hr. by apply elem_of_nil in Hr. }
  eexists.
  split; [vm_compute; reflexivity|].
  split; [exact Hwf|].
  match goal with
  | |- context [rules_of ?s _] =>
      assert (Hrun : Ec2ClassicStack [] "Ec2ClassicStack" empty_app
                     = Some (["Ec2ClassicStack"], s))
        by (vm_compute; reflexivity)
  end.
  destruct (two_tier_ingress _ _ _ _ _ Hrun Hwf) as (_ & _ & Hrules & Hadm).
  split; [exact Hrules|exact Hadm].
Defined.

(** ** The counting forwarder *)

Section ForwarderProperties.
Context {Event Response Err : Type}.
Variable path : Event → string.

Implicit Types (env : Env Event Response Err) (ev : Event)
  (w : World Event).

(** One invocation, spelled out. *)
Lemma hitcounter_handler_unfold env ev w :
  hitcounter_handler path env ev w =
  match store_fault env with
  | Some e =>
      ({| store := store w;
          calls := (calls w ++ [UpdateItem (path ev)])%list |}, inl e)
  | None =>
      ({| store := increment (path ev) (store w);
          calls := (calls w ++ [UpdateItem (path ev); Invoke ev])%list |},
       downstream env ev)
  end.
Proof.
  unfold hitcounter_handler, Run_bind, update_item, invoke, Run_ret.
  destruct (store_fault env); simpl; [done|].
  rewrite <- app_assoc. simpl. by destruct (downstream env ev).
Qed.

Lemma hits_increment_eq p (s : gmap string Z) :
  hits (increment p s) p = (hits s p + 1)%Z.
Proof. unfold hits at 1, increment. by rewrite lookup_insert_eq. Qed.

Lemma lookup_increment_ne p q (s : gmap string Z) :
  p ≠ q → increment p s !! q = s !! q.
Proof. intros Hne. unfold increment. by rewrite lookup_insert_ne. Qed.

(** C1: when the store takes the write, what the caller gets from the
    forwarder (response or downstream error) is exactly what the
    downstream handler gives for the same input, and it is the same
    whatever the counters held before the invocation. *)
Theorem forwarder_returns_downstream_outcome env ev w1 w2 :
  store_fault env = None →
  (hitcounter_handler path env ev w1).2 = downstream env ev
  ∧ (hitcounter_handler path env ev w2).2
      = (hitcounter_handler path env ev w1).2.
Proof.
  intros Hok. rewrite !hitcounter_handler_unfold, Hok. done.
Qed.

(** C3: an invocation for one path leaves the Hit Record of every other
    path as it was. *)
Theorem other_counters_untouched env ev w p1 p2 :
  p1 ≠ p2 →
  path ev = p1 →
  store (hitcounter_handler path env ev w).1 !! p2 = store w !! p2.
Proof.
  intros Hne Hp. rewrite hitcounter_handler_unfold.
  destruct (store_fault env); simpl; [done|].
  rewrite Hp. by apply lookup_increment_ne.
Qed.

(** C8: a failure of the store write, or of the downstream call after a
    successful write, reaches the caller as the very error the
    surroundings produced; the store is asked once and the downstream at
    most once, so nothing is retried. *)
Theorem failures_propagate_unchanged env ev w e :
  (store_fault env = Some e →
     (hitcounter_handler path env ev w).2 = inl e)
  ∧ (store_fault env = None → downstream env ev = inl e →
       (hitcounter_handler path env ev w).2 = inl e)
  ∧ (let issued :=
       drop (length (calls w)) (calls (hitcounter_handler path env ev w).1)
     in length (filter (λ c, is_update c = true) issued) = 1
        ∧ (length (filter (λ c, is_invoke c = true) issued) ≤ 1)%nat).
Proof.
  rewrite hitcounter_handler_unfold.
  split; [|split].
  - by intros ->.
  - by intros -> ->.
  - destruct (store_fault env); simpl; rewrite drop_app_length; simpl.
    + split; [done|lia].
    + split; [done|lia].
Qed.
End ForwarderProperties.

Section CountingProperties.
Context {Event Response Err : Type}.
Variable path : Event → string.

Implicit Types (env : Env Event Response Err) (ev : Event)
  (w : World Event) (reqs : list (Env Event Response Err * Event)).

Lemma run_all_cons env ev reqs w :
  run_all path ((env, ev) :: reqs) w =
  ((run_all path reqs (hitcounter_handler path env ev w).1).1,
   (hitcounter_handler path env ev w).2
     :: (run_all path reqs (hitcounter_handler path env ev w).1).2).
Proof.
  simpl. destruct (hitcounter_handler path env ev w) as [w1 r]. simpl.
  by destruct (run_all path reqs w1).
Qed.

Lemma invocations_for_cons p env ev reqs :
  invocations_for path p ((env, ev) :: reqs) =
  if decide (path ev = p) then S (invocations_for path p reqs)
  else invocations_for path p reqs.
Proof.
  unfold invocations_for. rewrite filter_cons. simpl.
  by destruct (decide (path ev = p)).
Qed.

(** The Hit Record of [p] after a run in which the store takes every
    write. *)
Lemma run_all_lookup reqs w p :
  Forall (λ req, store_fault req.1 = None) reqs →
  store (run_all path reqs w).1 !! p =
  match invocations_for path p reqs with
  | O => store w !! p
  | S n => Some (hits (store w) p + Z.of_nat (S n))%Z
  end.
Proof.
  intros Hok. revert w.
  induction Hok as [|[env ev] reqs Hreq Hok IH]; intros w; [done|].
  rewrite run_all_cons, invocations_for_cons. simpl in Hreq |- *.
  rewrite IH, hitcounter_handler_unfold, Hreq. simpl.
  destruct (decide (path ev = p)) as [Heq|Hne].
  - rewrite Heq, hits_increment_eq.
    destruct (invocations_for path p reqs) as [|n].
    + unfold increment. by rewrite lookup_insert_eq.
    + f_equal. lia.
  - destruct (invocations_for path p reqs) as [|n].
    + by apply lookup_increment_ne.
    + unfold hits. by rewrite lookup_increment_ne.
Qed.

(** Every invocation asks the store once, for the path of its request. *)
Lemma run_all_calls reqs w :
  ∃ issued,
    calls (run_all path reqs w).1 = (calls w ++ issued)%list
    ∧ filter (λ c, is_update c = true) issued
        = map (λ req, UpdateItem (path req.2)) reqs.
Proof.
  revert w. induction reqs as [|[env ev] reqs IH]; intros w.
  - exists []. by rewrite app_nil_r.
  - rewrite run_all_cons. simpl.
    destruct (IH (hitcounter_handler path env ev w).1) as (issued & -> & Hf).
    rewrite hitcounter_handler_unfold.
    destruct (store_fault env); simpl; rewrite <- app_assoc;
      eexists; (split; [reflexivity|]); simpl.
    + rewrite filter_cons_True by done. by rewrite Hf.
    + rewrite filter_cons_True by done.
      rewrite filter_cons_False by done. by rewrite Hf.
Qed.

Lemma run_all_completed reqs w :
  Forall no_failure reqs →
  Forall (λ r, ∃ resp, r = inr resp) (run_all path reqs w).2.
Proof.
  intros Hok. revert w.
  induction Hok as [|[env ev] reqs (Hs & resp & Hd) Hok IH]; intros w.
  - constructor.
  - rewrite run_all_cons. simpl in *. constructor; [|apply IH].
    rewrite hitcounter_handler_unfold, Hs. simpl. by exists resp.
Qed.

(** C2: in a run without failures every invocation completes and asks the
    store for exactly one increment, keyed by the path of its request; for
    a path that had no record before the run, the record exists as soon as
    the path has been invoked once, and after [n] invocations for it the
    stored counter is [n]. *)
Theorem counter_equals_invocations reqs w p :
  Forall no_failure reqs →
  store w !! p = None →
  let w' := (run_all path reqs w).1 in
  let n := invocations_for path p reqs in
  Forall (λ r, ∃ resp, r = inr resp) (run_all path reqs w).2
  ∧ (∃ issued,
       calls w' = (calls w ++ issued)%list
       ∧ filter (λ c, is_update c = true) issued
           = map (λ req, UpdateItem (path req.2)) reqs)
  ∧ hits (store w') p = Z.of_nat n
  ∧ (n = 0 → store w' !! p = None)
  ∧ (0 < n → store w' !! p = Some (Z.of_nat n)).
Proof.
  intros Hok Hnone. simpl.
  assert (Hst : Forall (λ req : Env Event Response Err * Event,
                          store_fault req.1 = None) reqs).
  { eapply Forall_impl; [exact Hok|]. by intros req [? _]. }
  pose proof (run_all_lookup reqs w p Hst) as Hl.
  split; [by apply run_all_completed|].
  split; [apply run_all_calls|].
  unfold hits at 1. rewrite Hl.
  unfold hits. rewrite Hnone.
  destruct (invocations_for path p reqs) as [|n]; cbn [default].
  - split; [done|]. split; [done|]. intros Hn. lia.
  - rewrite Z.add_0_l.
    split; [done|]. split; [intros Hn; lia|]. done.
Qed.
End CountingProperties.

(** ** The scenario of the hit-counter stack *)

(** In the stack that wraps [helloFn], the function named to the forwarder
    as its downstream is the node declared with the inline source
    [helloFn_src], whose behaviour [helloFn_handler] embeds. *)
Lemma wrapped_downstream_is_helloFn scope id st this st' :
  wrapped.HitCounterAppStack scope id st = Some (this, st') →
  ∃ fw hello,
    (((this ++ ["HelloHitCounter"]) ++ ["HitCounterHandler"])%list,
     RFunction fw) ∈ created st st'
    ∧ lambda.environment fw !! "DOWNSTREAM_FUNCTION_NAME"
        = Some (FunctionNameOf (this ++ ["HelloHandler"]))
    ∧ ((this ++ ["HelloHandler"])%list, RFunction hello) ∈ created st st'
    ∧ lambda.code hello = lambda.fromInline wrapped.helloFn_src.
Proof.
  intros Hrun. apply wrapped_stack_inv in Hrun as (-> & ->).
  rewrite created_app. eexists _, _. split.
  { do 4 apply list_elem_of_further. apply list_elem_of_here. }
  split.
  { simpl. rewrite lookup_insert_ne by done. by rewrite lookup_singleton_eq. }
  split.
  { apply list_elem_of_further, list_elem_of_here. }
  reflexivity.
Qed.

Lemma helloFn_src_meaning :
  inline_const_response wrapped.helloFn_src
  = Some {| statusCode := 200; body := "Hello Architect!" |}.
Proof. vm_compute. reflexivity. Qed.

(** C7: in the hit-counter stack the API's handler is the counting
    function, the function its [DOWNSTREAM_FUNCTION_NAME] names is a function
    of the stack, and the inline source that function is declared with means
    a handler that answers every input with status 200 and body
    [Hello Architect!] (the behaviour [helloFn_handler] embeds).  Three
    invocations of the forwarder for [/hello] in front of that handler,
    starting from an empty store and without store failures, each return that
    response and leave the store holding exactly the record [/hello ↦ 3]. *)
Theorem hello_three_times {Event Err : Type} (path : Event → string)
    scope id st this st' (e1 e2 e3 : Event) :
  wrapped.HitCounterAppStack scope id st = Some (this, st') →
  path e1 = "/hello" → path e2 = "/hello" → path e3 = "/hello" →
  let resp := {| statusCode := 200; body := "Hello Architect!" |} in
  ∃ api aprops fw d dprops (h : Event → HttpResponse),
    (api, RLambdaRestApi aprops) ∈ created st st'
    ∧ (lambda.node (apigw.handler aprops), RFunction fw) ∈ created st st'
    ∧ is_forwarder fw = true
    ∧ lambda.environment fw !! "DOWNSTREAM_FUNCTION_NAME"
        = Some (FunctionNameOf d)
    ∧ (d, RFunction dprops) ∈ created st st'
    ∧ function_handler dprops = Some h
    ∧ (∀ ev, h ev = resp ∧ h ev = helloFn_handler ev)
    ∧ let env : Env Event HttpResponse Err :=
        {| store_fault := None; downstream := λ ev, inr (h ev) |} in
      let run := run_all path [(env, e1); (env, e2); (env, e3)] empty_world in
      run.2 = [inr resp; inr resp; inr resp]
      ∧ store run.1 = {[ "/hello" := 3%Z ]}.
Proof.
  intros Hrun H1 H2 H3 resp.
  apply wrapped_stack_inv in Hrun as (-> & ->). rewrite created_app.
  eexists _, _, _, _, _, _.
  split. { do 5 apply list_elem_of_further. apply list_elem_of_here. }
  split. { do 4 apply list_elem_of_further. apply list_elem_of_here. }
  split; [reflexivity|].
  split.
  { simpl. rewrite lookup_insert_ne by done. by rewrite lookup_singleton_eq. }
  split. { apply list_elem_of_further, list_elem_of_here. }
  split.
  { unfold function_handler. cbn [lambda.code].
    rewrite helloFn_src_meaning. reflexivity. }
  split; [done|].
  intros env run. subst run env.
  rewrite !run_all_cons. cbn [run_all fst snd].
  rewrite !hitcounter_handler_unfold. cbn [store_fault downstream fst snd].
  split; [done|].
  cbn [store]. rewrite H1, H2, H3. vm_compute. reflexivity.
Qed.

Lemma hello_three_times_witness :
  ∃ st',
    wrapped.HitCounterAppStack [] "HitCounterAppStack" empty_app
      = Some (["HitCounterAppStack"], st')
    ∧ ∃ api aprops fw d dprops (h : string → HttpResponse),
        (api, RLambdaRestApi aprops) ∈ created empty_app st'
        ∧ (lambda.node (apigw.handler aprops), RFunction fw)
            ∈ created empty_app st'
        ∧ is_forwarder fw = true
        ∧ lambda.environment fw !! "DOWNSTREAM_FUNCTION_NAME"
            = Some (FunctionNameOf d)
        ∧ (d, RFunction dprops) ∈ created empty_app st'
        ∧ function_handler dprops = Some h
        ∧ (∀ ev, h ev = {| statusCode := 200; body := "Hello Architect!" |}
                 ∧ h ev = helloFn_handler ev)
        ∧ let env : Env string HttpResponse string :=
            {| store_fault := None; downstream := λ ev, inr (h ev) |} in
          let run :=
            run_all (λ ev : string, ev)
              [(env, "/hello"); (env, "/hello"); (env, "/hello")]
              empty_world in
          run.2
            = [inr {| statusCode := 200; body := "Hello Architect!" |};
               inr {| statusCode := 200; body := "Hello Architect!" |};
               inr {| statusCode := 200; body := "Hello Architect!" |}]
          ∧ store run.1 = {[ "/hello" := 3%Z ]}.
Proof.
  eexists. split; [vm_compute; reflexivity|].
  match goal with
  | |- context [Build_App ?c ?g ?i] =>
      assert (Hrun : wrapped.HitCounterAppStack [] "HitCounterAppStack"
                       empty_app
                     = Some (["HitCounterAppStack"], Build_App c g i))
        by (vm_compute; reflexivity)
  end.
  exact (hello_three_times (Err := string) (λ ev : string, ev) _ _ _ _ _
           "/hello" "/hello" "/hello" Hrun eq_refl eq_refl eq_refl).
Defined.

Lemma forwarder_returns_downstream_outcome_witness :
  let env : Env string HttpResponse string :=
    {| store_fault := None; downstream := λ ev, inr (helloFn_handler ev) |} in
  let w2 : World string := {| store := {[ "/hello" := 41%Z ]}; calls := [] |} in
  store_fault env = None
  ∧ (hitcounter_handler (λ ev : string, ev) env "/hello" empty_world).2
      = inr {| statusCode := 200; body := "Hello Architect!" |}
  ∧ (hitcounter_handler (λ ev : string, ev) env "/hello" w2).2
      = (hitcounter_handler (λ ev : string, ev) env "/hello" empty_world).2.
Proof.
  intros env w2. split; [reflexivity|].
  exact (forwarder_returns_downstream_outcome (λ ev : string, ev) env
           "/hello" empty_world w2 eq_refl).
Defined.

Lemma other_counters_untouched_witness :
  let env : Env string HttpResponse string :=
    {| store_fault := None; downstream := λ ev, inr (helloFn_handler ev) |} in
  let w : World string := {| store := {[ "/about" := 7%Z ]}; calls := [] |} in
  "/hello" ≠ "/about"
  ∧ store (hitcounter_handler (λ ev : string, ev) env "/hello" w).1 !! "/about"
      = store w !! "/about".
Proof.
  intros env w.
  assert (Hne : "/hello" ≠ "/about") by discriminate.
  split; [exact Hne|].
  exact (other_counters_untouched (λ ev : string, ev) env "/hello" w
           "/hello" "/about" Hne eq_refl).
Defined.

Lemma failures_propagate_unchanged_witness :
  let store_down : Env string HttpResponse string :=
    {| store_fault := Some "ProvisionedThroughputExceededException";
       downstream := λ ev, inr (helloFn_handler ev) |} in
  let downstream_down : Env string HttpResponse string :=
    {| store_fault := None;
       downstream := λ ev, inl "TooManyRequestsException" |} in
  (hitcounter_handler (λ ev : string, ev) store_down "/hello" empty_world).2
    = inl "ProvisionedThroughputExceededException"
  ∧ (hitcounter_handler (λ ev : string, ev) downstream_down "/hello"
       empty_world).2 = inl "TooManyRequestsException".
Proof.
  intros store_down downstream_down. split.
  - exact (proj1 (failures_propagate_unchanged (λ ev : string, ev) store_down
                    "/hello" empty_world _) eq_refl).
  - exact (proj1 (proj2 (failures_propagate_unchanged (λ ev : string, ev)
                           downstream_down "/hello" empty_world _))
             eq_refl eq_refl).
Defined.

Lemma counter_equals_invocations_witness :
  let env : Env string HttpResponse string :=
    {| store_fault := None; downstream := λ ev, inr (helloFn_handler ev) |} in
  let reqs := [(env, "/hello"); (env, "/about"); (env, "/hello")] in
  let w' := (run_all (λ ev : string, ev) reqs empty_world).1 in
  Forall no_failure reqs
  ∧ store (empty_world (Event := string)) !! "/hello" = None
  ∧ invocations_for (λ ev : string, ev) "/hello" reqs = 2
  ∧ hits (store w') "/hello" = 2%Z
  ∧ store w' !! "/hello" = Some 2%Z.
Proof.
  intros env reqs w'.
  assert (Hok : Forall no_failure reqs).
  { repeat constructor; simpl; by eexists. }
  split; [exact Hok|]. split; [reflexivity|]. split; [reflexivity|].
  destruct (counter_equals_invocations (λ ev : string, ev) reqs empty_world
              "/hello" Hok eq_refl) as (_ & _ & Hh & _ & Hs).
  split; [exact Hh|]. apply Hs. vm_compute. lia.
Defined.

(** * Further properties of the stacks *)

(** ** Synthesis only appends *)

Lemma extends_refl st : extends st st.
Proof. by repeat split. Qed.

Lemma extends_trans st1 st2 st3 :
  extends st1 st2 → extends st2 st3 → extends st1 st3.
Proof.
  intros (? & ? & ?) (? & ? & ?). repeat split; by etrans.
Qed.

Lemma only_appends_ret {A} (a : A) : only_appends (mret a : Synth A).
Proof. intros st b st' [-> ->]%Synth_ret_inv. apply extends_refl. Qed.

Lemma only_appends_bind {A B} (m : Synth A) (k : A → Synth B) :
  only_appends m → (∀ a, only_appends (k a)) → only_appends (m ≫= k).
Proof.
  intros Hm Hk st b st' (a & st1 & H1 & H2)%Synth_bind_inv.
  eapply extends_trans; [by eapply Hm|by eapply Hk].
Qed.

Lemma only_appends_add_child scope id r :
  only_appends (add_child scope id r).
Proof.
  intros st p st' (-> & _ & ->)%add_child_inv.
  repeat split; simpl; [by apply prefix_app_r|done|done].
Qed.

Lemma only_appends_add_grant g : only_appends (add_grant g).
Proof.
  intros st u st' ->%add_grant_inv.
  repeat split; simpl; [done|by apply prefix_app_r|done].
Qed.

Lemma only_appends_add_ingress r : only_appends (add_ingress r).
Proof.
  intros st u st' ->%add_ingress_inv.
  repeat split; simpl; [done|done|by apply prefix_app_r].
Qed.

Ltac unfold_constructors :=
  unfold new_Stack, new_Construct, new_Table, new_Function, new_LambdaRestApi,
    new_Vpc, new_SecurityGroup, new_Instance, new_Bucket,
    new_BucketDeployment, new_CfnOutput, grantReadWriteData, grantInvoke,
    addIngressRule.

Ltac only_appends_tac :=
  unfold_constructors; cbv zeta;
  repeat first
    [ apply only_appends_ret
    | apply only_appends_add_child
    | apply only_appends_add_grant
    | apply only_appends_add_ingress
    | apply only_appends_bind; [|intros ?] ].

Lemma only_appends_new_HitCounter scope id props :
  only_appends (hitcounter.new_HitCounter scope id props).
Proof. unfold hitcounter.new_HitCounter. only_appends_tac. Qed.

Lemma only_appends_repository_stacks mk scope id :
  mk ∈ repository_stacks → only_appends (mk scope id).
Proof.
  intros Hmk. elem_cases Hmk; subst mk.
  - unfold wrapped.HitCounterAppStack, hitcounter.new_HitCounter.
    only_appends_tac.
  - unfold standalone.HitCounterAppStack. only_appends_tac.
  - unfold Ec2ClassicStack. only_appends_tac.
  - unfold MyCdkAppStack. only_appends_tac.
Qed.

Lemma extends_created st st' :
  extends st st' → constructs st' = (constructs st ++ created st st')%list.
Proof.
  intros [[k Hk] _]. unfold created. rewrite Hk.
  by rewrite drop_app_length.
Qed.

(** ** When a construction goes through *)



Ltac prefix_tac :=
  first [ reflexivity | apply prefix_app_r; prefix_tac ].










(** ** Invariants of the tree *)

Lemma keeps_ret I {A} (a : A) : keeps I (mret a : Synth A).
Proof. by intros st b st' HI [-> ->]%Synth_ret_inv. Qed.

Lemma keeps_bind I {A B} (m : Synth A) (k : A → Synth B) :
  keeps I m → (∀ a, keeps I (k a)) → keeps I (m ≫= k).
Proof.
  intros Hm Hk st b st' HI (a & st1 & H1 & H2)%Synth_bind_inv.
  eapply Hk; [|done]. by eapply Hm.
Qed.

Lemma lookup_construct_None_fst p l :
  lookup_construct p l = None → p ∉ l.*1.
Proof.
  intros Hnone [[q r] [Heq Hin]]%list_elem_of_fmap. simpl in Heq. subst q.
  by apply (lookup_construct_None_elem _ r) in Hnone.
Qed.

Lemma keeps_unique_add_child scope id r :
  keeps paths_unique (add_child scope id r).
Proof.
  intros st p st' Hu (-> & Hfree & ->)%add_child_inv.
  unfold paths_unique in *. simpl. rewrite fmap_app. simpl.
  apply NoDup_app. split; [done|]. split.
  - intros q Hq ->%list_elem_of_singleton.
    by apply lookup_construct_None_fst in Hfree.
  - apply NoDup_singleton.
Qed.

Lemma keeps_unique_add_grant g : keeps paths_unique (add_grant g).
Proof. by intros st u st' Hu ->%add_grant_inv. Qed.

Lemma keeps_unique_add_ingress r : keeps paths_unique (add_ingress r).
Proof. by intros st u st' Hu ->%add_ingress_inv. Qed.

Ltac keeps_unique_tac :=
  unfold_constructors; cbv zeta;
  repeat first
    [ apply keeps_ret
    | apply keeps_unique_add_child
    | apply keeps_unique_add_grant
    | apply keeps_unique_add_ingress
    | apply keeps_bind; [|intros ?] ].

Lemma keeps_unique_new_HitCounter scope id props :
  keeps paths_unique (hitcounter.new_HitCounter scope id props).
Proof. unfold hitcounter.new_HitCounter. keeps_unique_tac. Qed.

Lemma keeps_unique_repository_stacks mk scope id :
  mk ∈ repository_stacks → keeps paths_unique (mk scope id).
Proof.
  intros Hmk. elem_cases Hmk; subst mk.
  - unfold wrapped.HitCounterAppStack, hitcounter.new_HitCounter.
    keeps_unique_tac.
  - unfold standalone.HitCounterAppStack. keeps_unique_tac.
  - unfold Ec2ClassicStack. keeps_unique_tac.
  - unfold MyCdkAppStack. keeps_unique_tac.
Qed.

Lemma elem_extends st st' x :
  extends st st' → x ∈ constructs st → x ∈ constructs st'.
Proof. intros [[k ->] _] Hin. apply elem_of_app. by left. Qed.

Lemma is_table_extends st st' p :
  extends st st' → is_table st p → is_table st' p.
Proof. intros He [x Hx]. exists x. by eapply elem_extends. Qed.
Lemma is_function_extends st st' p :
  extends st st' → is_function st p → is_function st' p.
Proof. intros He [x Hx]. exists x. by eapply elem_extends. Qed.
Lemma is_vpc_extends st st' p :
  extends st st' → is_vpc st p → is_vpc st' p.
Proof. intros He [x Hx]. exists x. by eapply elem_extends. Qed.
Lemma is_group_extends st st' p :
  extends st st' → is_group st p → is_group st' p.
Proof. intros He [x Hx]. exists x. by eapply elem_extends. Qed.
Lemma is_instance_extends st st' p :
  extends st st' → is_instance st p → is_instance st' p.
Proof. intros He [x Hx]. exists x. by eapply elem_extends. Qed.
Lemma is_bucket_extends st st' p :
  extends st st' → is_bucket st p → is_bucket st' p.
Proof. intros He [x Hx]. exists x. by eapply elem_extends. Qed.

Lemma token_ok_extends st st' t :
  extends st st' → token_ok st t → token_ok st' t.
Proof.
  intros He. destruct t; simpl; eauto using is_table_extends,
    is_function_extends, is_instance_extends, is_bucket_extends.
Qed.

Lemma resource_refs_ok_extends st st' r :
  extends st st' → resource_refs_ok st r → resource_refs_ok st' r.
Proof.
  intros He. destruct r; simpl; eauto using is_function_extends,
    is_vpc_extends, is_bucket_extends.
  - intros H. eapply map_Forall_impl; [exact H|].
    intros k t. by apply token_ok_extends.
  - intros [? ?]. eauto using is_vpc_extends, is_group_extends.
  - intros H. eapply Forall_impl; [exact H|].
    intros t. by apply token_ok_extends.
Qed.

(** The parts of well-formedness that hold of everything already in the
    tree carry over to a continuation of it. *)
Lemma wf_old_carries st st' :
  extends st st' →
  (parents_present st →
     ∀ p a r, ((p ++ [a])%list, r) ∈ constructs st →
              p = [] ∨ ∃ r', (p, r') ∈ constructs st')
  ∧ (refs_ok st →
       ∀ p r, (p, r) ∈ constructs st → resource_refs_ok st' r)
  ∧ (grants_ok st →
       ∀ g, g ∈ grants st →
            is_function st' (grantee g)
            ∧ (is_table st' (resource g) ∨ is_function st' (resource g)))
  ∧ (rules_ok st →
       ∀ r, r ∈ ingress st →
            is_group st' (ec2.node (ec2.target r))
            ∧ match ec2.peer r with
              | ec2.peerGroup sg => is_group st' (ec2.node sg)
              | ec2.ipv4 _ _ => True
              end).
Proof.
  intros He. split; [|split; [|split]].
  - intros Hpar p a r Hin. destruct (Hpar _ _ _ Hin) as [?|[r' Hr']];
      [by left|right]. exists r'. by eapply elem_extends.
  - intros Hrefs p r Hin. eapply resource_refs_ok_extends; [done|].
    by eapply Hrefs.
  - intros Hg g Hin. destruct (Hg g Hin) as [Hf Hr]. split.
    + by eapply is_function_extends.
    + destruct Hr; [left|right];
        eauto using is_table_extends, is_function_extends.
  - intros Hr r Hin. destruct (Hr r Hin) as [Ht Hp]. split.
    + by eapply is_group_extends.
    + destruct (ec2.peer r); [done|]. by eapply is_group_extends.
Qed.

(** Well-formedness of a continuation, from what is new in it. *)
Lemma app_wf_extend st st' :
  extends st st' →
  app_wf st →
  paths_unique st' →
  (∀ p a r, ((p ++ [a])%list, r) ∈ created st st' →
            p = [] ∨ ∃ r', (p, r') ∈ constructs st') →
  (∀ p r, (p, r) ∈ created st st' → resource_refs_ok st' r) →
  (∀ g, g ∈ drop (length (grants st)) (grants st') →
        is_function st' (grantee g)
        ∧ (is_table st' (resource g) ∨ is_function st' (resource g))) →
  (∀ r, r ∈ drop (length (ingress st)) (ingress st') →
        is_group st' (ec2.node (ec2.target r))
        ∧ match ec2.peer r with
          | ec2.peerGroup sg => is_group st' (ec2.node sg)
          | ec2.ipv4 _ _ => True
          end) →
  app_wf st'.
Proof.
  intros He (Hu & Hpar & Hrefs & Hg & Hr) Hu' Npar Nrefs Ng Nr.
  destruct (wf_old_carries st st' He) as (Opar & Orefs & Og & Or).
  pose proof (extends_created st st' He) as Hc.
  destruct He as (_ & [gs Hgs] & [rs Hrs]).
  rewrite Hgs, drop_app_length in Ng. rewrite Hrs, drop_app_length in Nr.
  split; [done|]. split; [|split; [|split]].
  - intros p a r Hin. rewrite Hc in Hin.
    apply elem_of_app in Hin as [Hin|Hin]; eauto.
  - intros p r Hin. rewrite Hc in Hin.
    apply elem_of_app in Hin as [Hin|Hin]; eauto.
  - intros g Hin. rewrite Hgs in Hin.
    apply elem_of_app in Hin as [Hin|Hin]; eauto.
  - intros r Hin. rewrite Hrs in Hin.
    apply elem_of_app in Hin as [Hin|Hin]; eauto.
Qed.

Ltac in_list :=
  solve [repeat first [apply list_elem_of_here | apply list_elem_of_further]].

Ltac in_new Hcons :=
  rewrite Hcons; apply elem_of_app; right; in_list.

Ltac kind_tac Hcons :=
  unfold is_table, is_function, is_vpc, is_group, is_instance, is_bucket;
  eexists; in_new Hcons.

Ltac refs_tac Hcons :=
  simpl;
  repeat match goal with
  | |- True => exact I
  | |- _ ∧ _ => split
  | |- map_Forall _ ∅ => apply map_Forall_empty
  | |- map_Forall _ (<[_:=_]> _) => apply map_Forall_insert_2
  | |- map_Forall _ {[_ := _]} => apply map_Forall_singleton
  | |- Forall _ [] => constructor
  | |- Forall _ (_ :: _) => constructor
  | |- token_ok _ _ => progress simpl
  | |- _ => first [assumption | kind_tac Hcons]
  end.

Ltac parent_tac Hscope Hcons Hin :=
  let Hp := fresh in
  apply pair_equal_spec in Hin as [Hp _];
  apply app_inj_tail in Hp as [-> ->];
  first
    [ solve [right; eexists; in_new Hcons]
    | solve [destruct Hscope as [->|[? ?]];
             [by left
             |right; eexists; rewrite Hcons; apply elem_of_app; left;
              eassumption]] ].

(** Bring the facts of an inversion lemma into the shape the obligations of
    [app_wf_extend] are discharged from. *)
Ltac wf_setup Hc HG HR Hcons :=
  rewrite Hc in Hcons;
  rewrite ?Hc, ?HG, ?HR, ?drop_app_length, ?drop_all.

Ltac wf_parents Hscope Hcons :=
  let Hin := fresh "Hin" in
  intros ? ? ? Hin; elem_cases Hin; parent_tac Hscope Hcons Hin.
Ltac wf_refs Hcons :=
  let Hin := fresh "Hin" in
  intros ? ? Hin; elem_cases Hin; simplify_eq; refs_tac Hcons.
Ltac wf_grants Hcons :=
  let Hin := fresh "Hin" in
  intros ? Hin; elem_cases Hin; subst; simpl; split;
  first [kind_tac Hcons | left; kind_tac Hcons | right; assumption
        | right; kind_tac Hcons].
Ltac wf_rules Hcons :=
  let Hin := fresh "Hin" in
  intros ? Hin; elem_cases Hin; subst; simpl; split;
  first [exact I | kind_tac Hcons].

Lemma wrapped_stack_keeps_wf scope id st this st' :
  app_wf st → scope_ok st scope →
  wrapped.HitCounterAppStack scope id st = Some (this, st') →
  app_wf st'.
Proof.
  intros Hwf Hscope Hrun.
  pose proof (only_appends_repository_stacks wrapped.HitCounterAppStack
                scope id ltac:(in_list) _ _ _ Hrun) as He.
  pose proof (keeps_unique_repository_stacks wrapped.HitCounterAppStack
                scope id ltac:(in_list) _ _ _ (proj1 Hwf) Hrun) as Hu.
  pose proof (extends_created _ _ He) as Hcons.
  apply (app_wf_extend st st' He Hwf Hu).
  all: apply wrapped_stack_inv in Hrun as (-> & Hst').
  all: pose proof (f_equal (created st) Hst') as Hc;
       rewrite created_app in Hc.
  all: pose proof (f_equal grants Hst') as HG;
       pose proof (f_equal ingress Hst') as HR; simpl in HG, HR.
  all: clear Hst'; wf_setup Hc HG HR Hcons.
  - wf_parents Hscope Hcons.
  - wf_refs Hcons.
  - wf_grants Hcons.
  - wf_rules Hcons.
Qed.

Ltac stack_wf_start mk scope id Hwf Hrun He Hu Hcons :=
  pose proof (only_appends_repository_stacks mk scope id ltac:(in_list)
                _ _ _ Hrun) as He;
  pose proof (keeps_unique_repository_stacks mk scope id ltac:(in_list)
                _ _ _ (proj1 Hwf) Hrun) as Hu;
  pose proof (extends_created _ _ He) as Hcons;
  apply (app_wf_extend _ _ He Hwf Hu).

Lemma standalone_stack_keeps_wf scope id st this st' :
  app_wf st → scope_ok st scope →
  standalone.HitCounterAppStack scope id st = Some (this, st') →
  app_wf st'.
Proof.
  intros Hwf Hscope Hrun.
  stack_wf_start standalone.HitCounterAppStack scope id Hwf Hrun He Hu Hcons.
  all: apply standalone_stack_inv in Hrun as (-> & Hst').
  all: pose proof (f_equal (created st) Hst') as Hc;
       rewrite created_app in Hc.
  all: pose proof (f_equal grants Hst') as HG;
       pose proof (f_equal ingress Hst') as HR; simpl in HG, HR.
  all: clear Hst'; wf_setup Hc HG HR Hcons.
  - wf_parents Hscope Hcons.
  - wf_refs Hcons.
  - wf_grants Hcons.
  - wf_rules Hcons.
Qed.

Lemma Ec2ClassicStack_keeps_wf scope id st this st' :
  app_wf st → scope_ok st scope →
  Ec2ClassicStack scope id st = Some (this, st') →
  app_wf st'.
Proof.
  intros Hwf Hscope Hrun.
  stack_wf_start Ec2ClassicStack scope id Hwf Hrun He Hu Hcons.
  all: apply Ec2ClassicStack_inv in Hrun as (-> & Hc & _ & _ & HG & HR).
  all: wf_setup Hc HG HR Hcons.
  - wf_parents Hscope Hcons.
  - wf_refs Hcons.
  - wf_grants Hcons.
  - wf_rules Hcons.
Qed.

Lemma MyCdkAppStack_keeps_wf scope id st this st' :
  app_wf st → scope_ok st scope →
  MyCdkAppStack scope id st = Some (this, st') →
  app_wf st'.
Proof.
  intros Hwf Hscope Hrun.
  stack_wf_start MyCdkAppStack scope id Hwf Hrun He Hu Hcons.
  all: apply MyCdkAppStack_inv in Hrun as (-> & Hc & HG & HR).
  all: wf_setup Hc HG HR Hcons.
  - wf_parents Hscope Hcons.
  - wf_refs Hcons.
  - wf_grants Hcons.
  - wf_rules Hcons.
Qed.

Lemma empty_app_wf : app_wf empty_app.
Proof.
  unfold app_wf, paths_unique, parents_present, refs_ok, grants_ok, rules_ok.
  simpl. split; [apply NoDup_nil_2|].
  repeat split; intros;
    match goal with H : _ ∈ [] |- _ => by apply elem_of_nil in H end.
Qed.

(** ** Who may do what *)

Lemma permitted_extend st st' G who what perm :
  grants st' = (grants st ++ G)%list →
  permitted st' who what perm
  ↔ permitted st who what perm
    ∨ ∃ g, g ∈ G ∧ grantee g = who ∧ resource g = what
           ∧ perm ∈ permissions g.
Proof.
  intros HG. unfold permitted. rewrite HG. split.
  - intros (g & [Hin|Hin]%elem_of_app & Hrest); [left|right]; by exists g.
  - intros [(g & Hin & Hrest)|(g & Hin & Hrest)]; exists g;
      (split; [apply elem_of_app; auto|done]).
Qed.

(** Nodes added to a tree with unique paths were not in it before. *)
Lemma created_not_old st st' p r :
  extends st st' → paths_unique st' →
  (p, r) ∈ created st st' → ∀ r', (p, r') ∉ constructs st.
Proof.
  intros He Hu Hin r' Hold.
  pose proof (extends_created _ _ He) as Hc.
  unfold paths_unique in Hu. rewrite Hc, fmap_app in Hu.
  apply NoDup_app in Hu as (_ & Hdis & _).
  apply (Hdis p).
  - apply list_elem_of_fmap. by exists (p, r').
  - apply list_elem_of_fmap. by exists (p, r).
Qed.

(** In a well-formed tree, a path that is not a function of the tree holds
    no permission, and nothing holds a permission on a path that is not in
    the tree. *)
Lemma permitted_in_tree st who what perm :
  grants_ok st → permitted st who what perm →
  is_function st who ∧ (is_table st what ∨ is_function st what).
Proof.
  intros Hg (g & Hin & <- & <- & _). by apply Hg.
Qed.

Lemma elem_perm_rw (perm : Permission) :
  perm ∈ [ReadData; WriteData] ↔ perm = ReadData ∨ perm = WriteData.
Proof.
  rewrite !elem_of_cons, elem_of_nil. tauto.
Qed.

Lemma elem_perm_invoke (perm : Permission) :
  perm ∈ [InvokeFunction] ↔ perm = InvokeFunction.
Proof. rewrite elem_of_cons, elem_of_nil. tauto. Qed.

(** X3: the permissions in force after a [HitCounter] is constructed are
    those in force before and, for its handler alone, read and write on its
    own table and invoke on the downstream of its props: nothing else is
    granted to anyone. *)
Theorem HitCounter_adds_exactly_its_grants scope id props st hc st'
    who what perm :
  hitcounter.new_HitCounter scope id props st = Some (hc, st') →
  permitted st' who what perm
  ↔ permitted st who what perm
    ∨ (who = lambda.node (hitcounter.handler hc)
       ∧ ((what = dynamodb.node (hitcounter.table hc)
           ∧ (perm = ReadData ∨ perm = WriteData))
          ∨ (what = lambda.node (hitcounter.downstream props)
             ∧ perm = InvokeFunction))).
Proof.
  intros Hrun. apply new_HitCounter_inv in Hrun as (-> & _ & _ & HG & _).
  rewrite (permitted_extend _ _ _ _ _ _ HG). simpl.
  apply or_iff_compat_l. split.
  - intros (g & Hin & <- & <- & Hp). elem_cases Hin; subst g; simpl in *.
    + apply elem_perm_rw in Hp. tauto.
    + apply elem_perm_invoke in Hp. tauto.
  - intros [-> [[-> Hp]|[-> ->]]].
    + eexists. split; [apply list_elem_of_here|]. simpl.
      by rewrite elem_perm_rw.
    + eexists. split; [apply list_elem_of_further, list_elem_of_here|].
      simpl. by rewrite elem_perm_invoke.
Qed.

(** X4: two [HitCounter]s constructed one after the other in a well-formed
    tree have different tables and different handlers, and neither handler
    can read or write the other's table. *)
Theorem HitCounters_isolated scope1 id1 props1 scope2 id2 props2
    st hc1 st1 hc2 st2 perm :
  app_wf st →
  hitcounter.new_HitCounter scope1 id1 props1 st = Some (hc1, st1) →
  hitcounter.new_HitCounter scope2 id2 props2 st1 = Some (hc2, st2) →
  hitcounter.table hc1 ≠ hitcounter.table hc2
  ∧ hitcounter.handler hc1 ≠ hitcounter.handler hc2
  ∧ (perm ≠ InvokeFunction →
     ¬ permitted st2 (lambda.node (hitcounter.handler hc1))
         (dynamodb.node (hitcounter.table hc2)) perm
     ∧ ¬ permitted st2 (lambda.node (hitcounter.handler hc2))
           (dynamodb.node (hitcounter.table hc1)) perm).
Proof.
  intros Hwf H1 H2.
  pose proof (only_appends_new_HitCounter _ _ _ _ _ _ H1) as He1.
  pose proof (only_appends_new_HitCounter _ _ _ _ _ _ H2) as He2.
  pose proof (keeps_unique_new_HitCounter _ _ _ _ _ _ (proj1 Hwf) H1) as Hu1.
  pose proof (keeps_unique_new_HitCounter _ _ _ _ _ _ Hu1 H2) as Hu2.
  pose proof (extends_created _ _ He1) as Hcons1.
  apply new_HitCounter_inv in H1 as (-> & Hc1 & _ & HG1 & _).
  apply new_HitCounter_inv in H2 as (-> & Hc2 & _ & HG2 & _).
  simpl in *.
  set (t1 := ((scope1 ++ [id1]) ++ ["Hits"])%list) in *.
  set (h1 := ((scope1 ++ [id1]) ++ ["HitCounterHandler"])%list) in *.
  set (t2 := ((scope2 ++ [id2]) ++ ["Hits"])%list) in *.
  set (h2 := ((scope2 ++ [id2]) ++ ["HitCounterHandler"])%list) in *.
  (* what the first construction created is in [st1], what the second one
     created is not *)
  assert (Hin1 : ∀ p r, (p, r) ∈ created st st1 → (p, r) ∈ constructs st1).
  { intros p r Hin. rewrite Hcons1. apply elem_of_app. by right. }
  assert (Hnew2 : ∀ p r, (p, r) ∈ created st1 st2 →
                         ∀ r', (p, r') ∉ constructs st1).
  { intros p r. by apply created_not_old. }
  assert (Hnew1 : ∀ p r, (p, r) ∈ created st st1 →
                         ∀ r', (p, r') ∉ constructs st).
  { intros p r. by apply created_not_old. }
  assert (Ht : t1 ≠ t2).
  { intros Heq. eapply (Hnew2 t2); [rewrite Hc2; in_list|].
    rewrite <- Heq. apply Hin1. rewrite Hc1. in_list. }
  assert (Hh : h1 ≠ h2).
  { intros Heq. eapply (Hnew2 h2); [rewrite Hc2; in_list|].
    rewrite <- Heq. apply Hin1. rewrite Hc1. in_list. }
  assert (Hold1 : ∀ what p, ¬ permitted st h1 what p).
  { intros what p [[x Hx] _]%permitted_in_tree; [|apply Hwf].
    eapply (Hnew1 h1); [rewrite Hc1; in_list|exact Hx]. }
  assert (Hold2 : ∀ what p, ¬ permitted st h2 what p).
  { intros what p [[x Hx] _]%permitted_in_tree; [|apply Hwf].
    eapply (Hnew2 h2); [rewrite Hc2; in_list|].
    eapply elem_extends; [exact He1|exact Hx]. }
  split; [by intros [= ?]|]. split; [by intros [= ?]|].
  intros Hperm. split.
  - intros [Hst1|(g & Hin & Hwho & _)]%(permitted_extend _ _ _ _ _ _ HG2).
    + apply (permitted_extend _ _ _ _ _ _ HG1) in Hst1
        as [Hst|(g & Hin & _ & Hwhat & Hp)]; [by apply Hold1 in Hst|].
      elem_cases Hin; subst g; simpl in *; [done|].
      by apply elem_perm_invoke in Hp.
    + elem_cases Hin; subst g; simpl in Hwho; by symmetry in Hwho.
  - intros [Hst1|(g & Hin & _ & Hwhat & Hp)]%(permitted_extend _ _ _ _ _ _ HG2).
    + apply (permitted_extend _ _ _ _ _ _ HG1) in Hst1
        as [Hst|(g & Hin & Hwho & _)]; [by apply Hold2 in Hst|].
      elem_cases Hin; subst g; simpl in Hwho; done.
    + elem_cases Hin; subst g; simpl in *; [by symmetry in Hwhat|].
      by apply elem_perm_invoke in Hp.
Qed.

(** The grants a stack adds are held by functions it created. *)
Lemma repository_stacks_new_grantees mk scope id st this st' g :
  mk ∈ repository_stacks →
  mk scope id st = Some (this, st') →
  g ∈ drop (length (grants st)) (grants st') →
  ∃ fprops, (grantee g, RFunction fprops) ∈ created st st'.
Proof.
  intros Hmk Hrun Hin. elem_cases Hmk; subst mk.
  - apply wrapped_stack_inv in Hrun as (-> & ->).
    rewrite created_app. simpl in Hin. rewrite drop_app_length in Hin.
    elem_cases Hin; subst g; simpl; eexists; in_list.
  - apply standalone_stack_inv in Hrun as (-> & ->).
    rewrite created_app. simpl in Hin. rewrite drop_app_length in Hin.
    elem_cases Hin; subst g; simpl; eexists; in_list.
  - apply Ec2ClassicStack_inv in Hrun as (_ & _ & _ & _ & HG & _).
    rewrite HG, drop_all in Hin. by apply elem_of_nil in Hin.
  - apply MyCdkAppStack_inv in Hrun as (_ & _ & HG & _).
    rewrite HG, drop_all in Hin. by apply elem_of_nil in Hin.
Qed.

Lemma rw_not_invoke (perm : Permission) :
  perm ∈ [ReadData; WriteData] → perm ≠ InvokeFunction.
Proof. intros [->| ->]%elem_perm_rw; done. Qed.

(** X5: what the explicit grant calls of the stacks give.  Every
    permission that a stack of the repository adds by a grant call
    ([grantReadWriteData], [grantInvoke]) is held by a counting function the
    stack created, and is either data access to the table its
    [HITS_TABLE_NAME] names or invoke on the function its
    [DOWNSTREAM_FUNCTION_NAME] names, both created by the same stack; the EC2
    and S3 stacks make no grant call.  (Permissions that library constructs
    set up on their own are not recorded in [grants].) *)
Theorem stacks_grant_only_what_is_configured mk scope id st this st'
    who what perm :
  mk ∈ repository_stacks →
  mk scope id st = Some (this, st') →
  permitted st' who what perm →
  permitted st who what perm
  ∨ ∃ fprops,
      (who, RFunction fprops) ∈ created st st'
      ∧ is_forwarder fprops = true
      ∧ ((perm ≠ InvokeFunction
          ∧ lambda.environment fprops !! "HITS_TABLE_NAME"
              = Some (TableNameOf what)
          ∧ ∃ tprops, (what, RTable tprops) ∈ created st st')
         ∨ (perm = InvokeFunction
            ∧ lambda.environment fprops !! "DOWNSTREAM_FUNCTION_NAME"
                = Some (FunctionNameOf what)
            ∧ ∃ gprops, (what, RFunction gprops) ∈ created st st')).
Proof.
  intros Hmk Hrun Hperm. elem_cases Hmk; subst mk.
  - apply wrapped_stack_inv in Hrun as (-> & Hst').
    pose proof (f_equal grants Hst') as HG. simpl in HG.
    rewrite Hst', created_app. clear Hst'.
    apply (permitted_extend _ _ _ _ _ _ HG) in Hperm
      as [?|(g & Hin & <- & <- & Hp)]; [by left|right].
    elem_cases Hin; subst g; simpl in *.
    + eexists. split; [in_list|]. split; [reflexivity|]. left.
      split; [by apply rw_not_invoke|]. simpl.
      split; [by rewrite lookup_insert_eq|]. eexists. in_list.
    + eexists. split; [in_list|]. split; [reflexivity|]. right.
      split; [by apply elem_perm_invoke|]. simpl.
      split; [|eexists; in_list].
      rewrite lookup_insert_ne by done. by rewrite lookup_singleton_eq.
  - apply standalone_stack_inv in Hrun as (-> & Hst').
    pose proof (f_equal grants Hst') as HG. simpl in HG.
    rewrite Hst', created_app. clear Hst'.
    apply (permitted_extend _ _ _ _ _ _ HG) in Hperm
      as [?|(g & Hin & <- & <- & Hp)]; [by left|right].
    elem_cases Hin; subst g; simpl in *.
    eexists. split; [in_list|]. split; [reflexivity|]. left.
    split; [by apply rw_not_invoke|]. simpl.
    split; [by rewrite lookup_singleton_eq|]. eexists. in_list.
  - apply Ec2ClassicStack_inv in Hrun as (_ & _ & _ & _ & HG & _).
    left. unfold permitted in *. by rewrite <- HG.
  - apply MyCdkAppStack_inv in Hrun as (_ & _ & HG & _).
    left. unfold permitted in *. by rewrite <- HG.
Qed.

(** X6: whatever a function created by a stack of the repository is
    configured with it may use: it can read and write the table its
    [HITS_TABLE_NAME] names and invoke the function its
    [DOWNSTREAM_FUNCTION_NAME] names. *)
Theorem configured_resources_are_granted mk scope id st this st' p fprops :
  mk ∈ repository_stacks →
  mk scope id st = Some (this, st') →
  (p, RFunction fprops) ∈ created st st' →
  (∀ t, lambda.environment fprops !! "HITS_TABLE_NAME"
          = Some (TableNameOf t) →
        permitted st' p t ReadData ∧ permitted st' p t WriteData)
  ∧ (∀ f, lambda.environment fprops !! "DOWNSTREAM_FUNCTION_NAME"
            = Some (FunctionNameOf f) →
          permitted st' p f InvokeFunction).
Proof.
  intros Hmk Hrun Hin. elem_cases Hmk; subst mk.
  - apply wrapped_stack_inv in Hrun as (-> & Hst').
    pose proof (f_equal grants Hst') as HG. simpl in HG.
    rewrite Hst', created_app in Hin. clear Hst'.
    elem_cases Hin; simplify_eq; simpl.
    + split; intros x; by rewrite lookup_empty.
    + split.
      * intros t. rewrite lookup_insert_eq. intros [= <-].
        split; apply (permitted_extend _ _ _ _ _ _ HG); right;
          (eexists; split; [apply list_elem_of_here|]); simpl;
          rewrite elem_perm_rw; auto.
      * intros f. rewrite lookup_insert_ne by done.
        rewrite lookup_singleton_eq. intros [= <-].
        apply (permitted_extend _ _ _ _ _ _ HG). right.
        eexists. split; [apply list_elem_of_further, list_elem_of_here|].
        simpl. by rewrite elem_perm_invoke.
  - apply standalone_stack_inv in Hrun as (-> & Hst').
    pose proof (f_equal grants Hst') as HG. simpl in HG.
    rewrite Hst', created_app in Hin. clear Hst'.
    elem_cases Hin; simplify_eq; simpl. split.
    + intros t. rewrite lookup_singleton_eq. intros [= <-].
      split; apply (permitted_extend _ _ _ _ _ _ HG); right;
        (eexists; split; [apply list_elem_of_here|]); simpl;
        rewrite elem_perm_rw; auto.
    + intros f. by rewrite lookup_singleton_ne.
  - apply Ec2ClassicStack_inv in Hrun as (_ & Hc & _).
    rewrite Hc in Hin. elem_cases Hin; simplify_eq.
  - apply MyCdkAppStack_inv in Hrun as (_ & Hc & _).
    rewrite Hc in Hin. elem_cases Hin; simplify_eq.
Qed.

(** X7: in the stack that wraps [helloFn], the business function itself is
    given no permission on anything, and the only principal that may invoke
    it is the counting function in front of it. *)
Theorem helloFn_reached_only_through_forwarder scope id st this st' :
  app_wf st →
  wrapped.HitCounterAppStack scope id st = Some (this, st') →
  let helloFn := (this ++ ["HelloHandler"])%list in
  let fw := ((this ++ ["HelloHitCounter"]) ++ ["HitCounterHandler"])%list in
  (∀ what perm, ¬ permitted st' helloFn what perm)
  ∧ (∀ who perm, permitted st' who helloFn perm →
                 who = fw ∧ perm = InvokeFunction)
  ∧ permitted st' fw helloFn InvokeFunction.
Proof.
  intros Hwf Hrun.
  pose proof (only_appends_repository_stacks wrapped.HitCounterAppStack
                scope id ltac:(in_list) _ _ _ Hrun) as He.
  pose proof (keeps_unique_repository_stacks wrapped.HitCounterAppStack
                scope id ltac:(in_list) _ _ _ (proj1 Hwf) Hrun) as Hu.
  pose proof (λ p r, created_not_old st st' p r He Hu) as Hnew.
  apply wrapped_stack_inv in Hrun as (-> & Hst').
  pose proof (f_equal grants Hst') as HG. simpl in HG.
  rewrite Hst', created_app in Hnew. clear Hst'. simpl.
  assert (Hfresh : ∀ r, (((scope ++ [id]) ++ ["HelloHandler"])%list, r)
                        ∉ constructs st).
  { eapply Hnew. in_list. }
  split; [|split].
  - intros what perm
      [Hold|(g & Hin & Hwho & _)]%(permitted_extend _ _ _ _ _ _ HG).
    + apply permitted_in_tree in Hold as [[x Hx] _]; [|apply Hwf].
      by apply Hfresh in Hx.
    + elem_cases Hin; subst g; simpl in Hwho;
        by apply path_grandchild_ne in Hwho.
  - intros who perm
      [Hold|(g & Hin & Hwho & Hwhat & Hp)]%(permitted_extend _ _ _ _ _ _ HG).
    + apply permitted_in_tree in Hold as [_ [[x Hx]|[x Hx]]];
        [by apply Hfresh in Hx|by apply Hfresh in Hx|apply Hwf].
    + elem_cases Hin; subst g; simpl in *.
      * by apply path_grandchild_ne in Hwhat.
      * by apply elem_perm_invoke in Hp.
  - apply (permitted_extend _ _ _ _ _ _ HG). right.
    eexists. split; [apply list_elem_of_further, list_elem_of_here|].
    simpl. by rewrite elem_perm_invoke.
Qed.

(** ** Frame and containment *)

Lemma repository_stack_created_inside mk scope id st this st' p r :
  mk ∈ repository_stacks →
  mk scope id st = Some (this, st') →
  (p, r) ∈ created st st' → (scope ++ [id])%list `prefix_of` p.
Proof.
  intros Hmk Hrun Hin. elem_cases Hmk; subst mk.
  - apply wrapped_stack_inv in Hrun as (-> & ->).
    rewrite created_app in Hin. elem_cases Hin; simplify_eq; prefix_tac.
  - apply standalone_stack_inv in Hrun as (-> & ->).
    rewrite created_app in Hin. elem_cases Hin; simplify_eq; prefix_tac.
  - apply Ec2ClassicStack_inv in Hrun as (-> & Hc & _).
    rewrite Hc in Hin. elem_cases Hin; simplify_eq; prefix_tac.
  - apply MyCdkAppStack_inv in Hrun as (-> & Hc & _).
    rewrite Hc in Hin. elem_cases Hin; simplify_eq; prefix_tac.
Qed.

Lemma lookup_construct_extends st st' p r :
  extends st st' →
  lookup_construct p (constructs st) = Some r →
  lookup_construct p (constructs st') = Some r.
Proof.
  intros [[k ->] _] Hl. by rewrite lookup_construct_app, Hl.
Qed.

(** X8: synthesizing a stack of the repository, or a [HitCounter], never
    removes or changes what is already declared: the nodes, grants and
    ingress rules of the tree stay, in order, in front of what is added, and
    every path resolves to the node it resolved to before. *)
Theorem synthesis_keeps_what_was_declared :
  (∀ mk scope id st this st',
     mk ∈ repository_stacks →
     mk scope id st = Some (this, st') →
     constructs st' = (constructs st ++ created st st')%list
     ∧ grants st `prefix_of` grants st'
     ∧ ingress st `prefix_of` ingress st'
     ∧ ∀ p r, lookup_construct p (constructs st) = Some r →
              lookup_construct p (constructs st') = Some r)
  ∧ (∀ scope id props st hc st',
       hitcounter.new_HitCounter scope id props st = Some (hc, st') →
       constructs st' = (constructs st ++ created st st')%list
       ∧ grants st `prefix_of` grants st'
       ∧ ingress st `prefix_of` ingress st'
       ∧ ∀ p r, lookup_construct p (constructs st) = Some r →
                lookup_construct p (constructs st') = Some r).
Proof.
  split.
  - intros mk scope id st this st' Hmk Hrun.
    pose proof (only_appends_repository_stacks mk scope id Hmk _ _ _ Hrun)
      as He.
    split; [by apply extends_created|].
    split; [apply He|]. split; [apply He|].
    intros p r. by apply lookup_construct_extends.
  - intros scope id props st hc st' Hrun.
    pose proof (only_appends_new_HitCounter scope id props _ _ _ Hrun) as He.
    split; [by apply extends_created|].
    split; [apply He|]. split; [apply He|].
    intros p r. by apply lookup_construct_extends.
Qed.

(** X9: a stack of the repository is self-contained: every node it creates
    lies at or below [scope/id], and every grant and ingress rule it adds
    names only such nodes. *)
Theorem stack_touches_only_its_subtree mk scope id st this st' :
  mk ∈ repository_stacks →
  mk scope id st = Some (this, st') →
  let inside p := (scope ++ [id])%list `prefix_of` p in
  (∀ p r, (p, r) ∈ created st st' → inside p)
  ∧ (∀ g, g ∈ drop (length (grants st)) (grants st') →
          inside (grantee g) ∧ inside (resource g))
  ∧ (∀ r, r ∈ drop (length (ingress st)) (ingress st') →
          inside (ec2.node (ec2.target r))
          ∧ ∀ sg, ec2.peer r = ec2.peerGroup sg → inside (ec2.node sg)).
Proof.
  intros Hmk Hrun inside. split.
  { intros p r. by eapply repository_stack_created_inside. }
  subst inside. elem_cases Hmk; subst mk.
  - apply wrapped_stack_inv in Hrun as (-> & ->). simpl.
    rewrite drop_app_length, drop_all. split.
    + intros g Hin. elem_cases Hin; subst g; simpl; split; prefix_tac.
    + intros r Hin. by apply elem_of_nil in Hin.
  - apply standalone_stack_inv in Hrun as (-> & ->). simpl.
    rewrite drop_app_length, drop_all. split.
    + intros g Hin. elem_cases Hin; subst g; simpl; split; prefix_tac.
    + intros r Hin. by apply elem_of_nil in Hin.
  - apply Ec2ClassicStack_inv in Hrun as (-> & _ & _ & _ & -> & ->).
    rewrite drop_app_length, drop_all. split.
    + intros g Hin. by apply elem_of_nil in Hin.
    + intros r Hin. elem_cases Hin; subst r; simpl.
      * split; [prefix_tac|]. by intros sg.
      * split; [prefix_tac|]. intros sg [= <-]. simpl. prefix_tac.
  - apply MyCdkAppStack_inv in Hrun as (-> & _ & -> & ->).
    rewrite !drop_all. split; intros x Hin; by apply elem_of_nil in Hin.
Qed.

(** X10: every stack of the repository keeps the tree well formed: paths
    stay unique, parents present, and every reference held in props, grants
    and ingress rules points at a node of the right kind. *)
Theorem stacks_keep_tree_well_formed mk scope id st this st' :
  mk ∈ repository_stacks →
  app_wf st → scope_ok st scope →
  mk scope id st = Some (this, st') → app_wf st'.
Proof.
  intros Hmk Hwf Hscope Hrun. elem_cases Hmk; subst mk.
  - by eapply wrapped_stack_keeps_wf.
  - by eapply standalone_stack_keeps_wf.
  - by eapply Ec2ClassicStack_keeps_wf.
  - by eapply MyCdkAppStack_keeps_wf.
Qed.

(** X11: constructing a [HitCounter] keeps the tree well formed, provided
    the downstream of its props is a function of the tree: paths stay
    unique, parents present, and every reference in props, grants and
    ingress rules points at a node of the right kind. *)
Theorem HitCounter_keeps_tree_well_formed scope id props st hc st' :
  app_wf st → scope_ok st scope →
  is_function st (lambda.node (hitcounter.downstream props)) →
  hitcounter.new_HitCounter scope id props st = Some (hc, st') →
  app_wf st'.
Proof.
  intros Hwf Hscope Hd Hrun.
  pose proof (only_appends_new_HitCounter scope id props _ _ _ Hrun) as He.
  pose proof (keeps_unique_new_HitCounter scope id props _ _ _
                (proj1 Hwf) Hrun) as Hu.
  pose proof (extends_created _ _ He) as Hcons.
  pose proof (is_function_extends _ _ _ He Hd) as Hd'.
  apply (app_wf_extend _ _ He Hwf Hu).
  all: apply new_HitCounter_inv in Hrun as (-> & Hc & _ & HG & HR).
  all: wf_setup Hc HG HR Hcons.
  - wf_parents Hscope Hcons.
  - wf_refs Hcons.
  - wf_grants Hcons.
  - wf_rules Hcons.
Qed.


(** ** The network and the website *)

(** X13: what the EC2 stack opens: the frontend group lets a packet from an
    IPv4 sender in exactly when it is TCP to port 80, and a sender that is
    not a member of the frontend group is never let into the backend
    group. *)
Theorem world_reaches_only_frontend_http scope id st this st' pkt :
  Ec2ClassicStack scope id st = Some (this, st') →
  ingress_wf st →
  (0 ≤ src_addr pkt < 2 ^ 32)%Z →
  let frontendSG := {| ec2.node := this ++ ["FrontendSG"] |} in
  let backendSG := {| ec2.node := this ++ ["BackendSG"] |} in
  (admits st' frontendSG pkt = true
   ↔ pkt_protocol pkt = ec2.TCP ∧ dst_port pkt = 80%Z)
  ∧ (frontendSG ∉ src_groups pkt → admits st' backendSG pkt = false).
Proof.
  intros Hrun Hwf Haddr.
  apply Ec2ClassicStack_inv in Hrun as (-> & _ & Hf & Hb & _ & Hi).
  simpl.
  assert (Hne : ({| ec2.node := (scope ++ [id]) ++ ["BackendSG"] |}
                  : ec2.SecurityGroup)
                ≠ {| ec2.node := (scope ++ [id]) ++ ["FrontendSG"] |}).
  { intros [= Heq]. by apply path_child_ne in Heq. }
  unfold admits. rewrite Hi, !existsb_app.
  rewrite !admits_old_rules_fresh_group by done.
  cbn [existsb orb]. unfold rule_admits. cbn [ec2.target ec2.peer
    ec2.connection peer_admits ec2.anyIpv4].
  split.
  - rewrite (bool_decide_eq_true_2 _ eq_refl).
    rewrite (bool_decide_eq_false_2 _ Hne).
    rewrite any_ipv4_contains by done.
    cbn [andb orb]. rewrite orb_false_r.
    unfold port_admits. cbn [ec2.tcp ec2.protocol ec2.fromPort ec2.toPort].
    rewrite !andb_true_iff, bool_decide_eq_true, !Z.leb_le.
    split.
    + intros [[Hp ?] ?]. split; [done|lia].
    + intros [Hp ->]. repeat split; [done|lia|lia].
  - intros Hnot.
    rewrite (bool_decide_eq_false_2 (_ = _)) by (by intros ?%symmetry).
    rewrite (bool_decide_eq_false_2 (_ ∈ _) Hnot).
    by rewrite andb_false_r.
Qed.

(** X14: every instance of the EC2 stack sits in the VPC the stack creates,
    asks for a subnet type that VPC declares, and is in a security group of
    that same VPC; the VPC declares public subnets only and no NAT
    gateway. *)
Theorem instances_fit_the_vpc scope id st this st' p iprops :
  Ec2ClassicStack scope id st = Some (this, st') →
  (p, RInstance iprops) ∈ created st st' →
  ∃ vprops gprops,
    (ec2.vpc_node (ec2.inst_vpc iprops), RVpc vprops) ∈ created st st'
    ∧ ec2.vpcSubnets iprops
        ∈ ec2.subnetType <$> ec2.subnetConfiguration vprops
    ∧ Forall (λ c, ec2.subnetType c = ec2.PUBLIC)
        (ec2.subnetConfiguration vprops)
    ∧ ec2.natGateways vprops = 0%Z
    ∧ (ec2.node (ec2.securityGroup iprops), RSecurityGroup gprops)
        ∈ created st st'
    ∧ ec2.vpc gprops = ec2.inst_vpc iprops.
Proof.
  intros Hrun Hin.
  apply Ec2ClassicStack_inv in Hrun as (-> & Hc & _).
  rewrite Hc in Hin |- *. elem_cases Hin; simplify_eq; simpl.
  - eexists _, _. split; [in_list|]. simpl.
    split; [apply list_elem_of_here|].
    split; [by repeat constructor|]. split; [done|].
    split; [in_list|done].
  - eexists _, _. split; [in_list|]. simpl.
    split; [apply list_elem_of_here|].
    split; [by repeat constructor|]. split; [done|].
    split; [in_list|done].
Qed.

(** X15: of the addresses the EC2 stack outputs, a public one is always that
    of an instance in the frontend group; of the instance in the backend
    group only the private address is output. *)
Theorem only_frontend_address_is_published scope id st this st' p value t :
  Ec2ClassicStack scope id st = Some (this, st') →
  (p, RCfnOutput value) ∈ created st st' →
  t ∈ value →
  match t with
  | InstancePublicIpOf i =>
      ∃ iprops, (i, RInstance iprops) ∈ created st st'
                ∧ ec2.securityGroup iprops
                    = {| ec2.node := this ++ ["FrontendSG"] |}
  | InstancePrivateIpOf i =>
      ∃ iprops, (i, RInstance iprops) ∈ created st st'
                ∧ ec2.securityGroup iprops
                    = {| ec2.node := this ++ ["BackendSG"] |}
  | Literal _ => True
  | _ => False
  end.
Proof.
  intros Hrun Hin Ht.
  apply Ec2ClassicStack_inv in Hrun as (-> & Hc & _).
  rewrite Hc in Hin |- *. elem_cases Hin; simplify_eq.
  - elem_cases Ht; subst t; [done|]. eexists. split; [in_list|done].
  - elem_cases Ht; subst t. eexists. split; [in_list|done].
Qed.

(** X16: the website stack is wired to one bucket: the deployment uploads
    into the bucket the stack creates, the URL it outputs is that bucket's
    website URL, and the bucket serves [index.html] to the public, public
    policies not being blocked. *)
Theorem website_served_from_deployed_bucket scope id st this st' :
  MyCdkAppStack scope id st = Some (this, st') →
  ∃ b bprops,
    (b, RBucket bprops) ∈ created st st'
    ∧ (∀ p dprops, (p, RBucketDeployment dprops) ∈ created st st' →
                   s3.node (s3deploy.destinationBucket dprops) = b)
    ∧ (∀ p value, (p, RCfnOutput value) ∈ created st st' →
                  value = [BucketWebsiteUrlOf b])
    ∧ (∃ p dprops, (p, RBucketDeployment dprops) ∈ created st st')
    ∧ (∃ p value, (p, RCfnOutput value) ∈ created st st')
    ∧ s3.websiteIndexDocument bprops = "index.html"
    ∧ s3.publicReadAccess bprops = true
    ∧ blocks_public_policy (s3.blockPublicAccess bprops) = false.
Proof.
  intros Hrun.
  apply MyCdkAppStack_inv in Hrun as (-> & Hc & _). rewrite Hc.
  eexists _, _. split; [in_list|].
  split. { intros p d Hin. elem_cases Hin; by simplify_eq. }
  split. { intros p v Hin. elem_cases Hin; by simplify_eq. }
  split. { eexists _, _. in_list. }
  split. { eexists _, _. in_list. }
  done.
Qed.

(** X17: nothing the repository creates outlives its stack: every table has
    removal policy DESTROY, and every bucket has it together with
    [autoDeleteObjects], so that a bucket with content can be removed. *)
Theorem nothing_is_retained mk scope id st this st' p r :
  mk ∈ repository_stacks →
  mk scope id st = Some (this, st') →
  (p, r) ∈ created st st' →
  match r with
  | RTable props => dynamodb.removalPolicy props = Some DESTROY
  | RBucket props =>
      s3.removalPolicy props = DESTROY ∧ s3.autoDeleteObjects props = true
  | _ => True
  end.
Proof.
  intros Hmk Hrun Hin. elem_cases Hmk; subst mk.
  - apply wrapped_stack_inv in Hrun as (-> & ->).
    rewrite created_app in Hin. elem_cases Hin; by simplify_eq.
  - apply standalone_stack_inv in Hrun as (-> & ->).
    rewrite created_app in Hin. elem_cases Hin; by simplify_eq.
  - apply Ec2ClassicStack_inv in Hrun as (-> & Hc & _).
    rewrite Hc in Hin. elem_cases Hin; by simplify_eq.
  - apply MyCdkAppStack_inv in Hrun as (-> & Hc & _).
    rewrite Hc in Hin. elem_cases Hin; by simplify_eq.
Qed.

(** ** Earlier declarations under later stacks *)

Lemma permitted_extends st st' who what perm :
  extends st st' → permitted st who what perm → permitted st' who what perm.
Proof.
  intros (_ & [k Hk] & _) (g & Hin & Hrest). exists g.
  split; [|done]. rewrite Hk. apply elem_of_app. by left.
Qed.

(** X18: a stack synthesized later leaves the access to earlier declarations
    as it was: a function that was in the tree holds exactly the permissions
    it held, and a security group that was in the tree lets in exactly the
    packets it let in. *)
Theorem later_stacks_leave_earlier_access_alone mk scope id st this st' :
  mk ∈ repository_stacks →
  app_wf st →
  mk scope id st = Some (this, st') →
  (∀ who what perm,
     is_function st who →
     permitted st' who what perm ↔ permitted st who what perm)
  ∧ (∀ sg pkt,
       is_group st (ec2.node sg) →
       admits st' sg pkt = admits st sg pkt).
Proof.
  intros Hmk Hwf Hrun.
  pose proof (only_appends_repository_stacks mk scope id Hmk _ _ _ Hrun)
    as He.
  pose proof (keeps_unique_repository_stacks mk scope id Hmk _ _ _
                (proj1 Hwf) Hrun) as Hu.
  pose proof (λ p r, created_not_old st st' p r He Hu) as Hnew.
  split.
  - intros who what perm [x Hx]. split; [|by apply permitted_extends].
    destruct He as (_ & [k Hk] & _).
    intros [?|(g & Hin & <- & _)]%(permitted_extend _ _ _ _ _ _ Hk); [done|].
    assert (Hg : g ∈ drop (length (grants st)) (grants st'))
      by (by rewrite Hk, drop_app_length).
    destruct (repository_stacks_new_grantees _ _ _ _ _ _ _ Hmk Hrun Hg)
      as [f Hf].
    by apply (Hnew _ _ Hf) in Hx.
  - intros sg pkt [x Hx]. unfold admits.
    elem_cases Hmk; subst mk.
    + apply wrapped_stack_inv in Hrun as (_ & ->). done.
    + apply standalone_stack_inv in Hrun as (_ & ->). done.
    + apply Ec2ClassicStack_inv in Hrun as (-> & Hc & _ & _ & _ & ->).
      rewrite Hc in Hnew.
      rewrite existsb_app. cbn [existsb]. unfold rule_admits at 2 3.
      cbn [ec2.target].
      rewrite !bool_decide_eq_false_2; [by rewrite !orb_false_r| |].
      * intros <-. simpl in Hx. eapply Hnew; [|exact Hx]. in_list.
      * intros <-. simpl in Hx. eapply Hnew; [|exact Hx]. in_list.
    + apply MyCdkAppStack_inv in Hrun as (_ & _ & _ & ->). done.
Qed.

Lemma app_wf_ingress_wf st : app_wf st → ingress_wf st.
Proof.
  intros (Hu & _ & _ & _ & Hr) r Hin.
  destruct (Hr r Hin) as [[props Hp] _].
  destruct (lookup_construct _ _) eqn:E; [done|].
  by apply (lookup_construct_None_elem _ (RSecurityGroup props)) in E.
Qed.

(** ** The properties above at concrete trees *)

Ltac with_run mk id H :=
  match goal with
  | |- context [Build_App ?c ?g ?i] =>
      assert (H : mk [] id empty_app = Some ([id], Build_App c g i))
        by (vm_compute; reflexivity)
  | _ : context [Build_App ?c ?g ?i] |- _ =>
      assert (H : mk [] id empty_app = Some ([id], Build_App c g i))
        by (vm_compute; reflexivity)
  end.



Lemma synthesis_keeps_what_was_declared_witness :
  ∃ st1 st2,
    standalone.HitCounterAppStack [] "A" empty_app = Some (["A"], st1)
    ∧ wrapped.HitCounterAppStack [] "B" st1 = Some (["B"], st2)
    ∧ grants st1 `prefix_of` grants st2
    ∧ constructs st2 = (constructs st1 ++ created st1 st2)%list.
Proof.
  eexists _, _.
  split; [vm_compute; reflexivity|]. split; [vm_compute; reflexivity|].
  lazymatch goal with
  | |- grants ?a `prefix_of` grants ?b ∧ _ =>
      assert (Hrun : wrapped.HitCounterAppStack [] "B" a = Some (["B"], b))
        by (vm_compute; reflexivity)
  end.
  destruct (proj1 synthesis_keeps_what_was_declared
              wrapped.HitCounterAppStack _ _ _ _ _ ltac:(in_list) Hrun)
    as (Hc & Hg & _).
  split; [exact Hg|exact Hc].
Defined.

Lemma stack_touches_only_its_subtree_witness :
  ∃ st',
    Ec2ClassicStack [] "Net" empty_app = Some (["Net"], st')
    ∧ ∀ p r, (p, r) ∈ created empty_app st' →
             ([] ++ ["Net"])%list `prefix_of` p.
Proof.
  eexists. split; [vm_compute; reflexivity|].
  with_run Ec2ClassicStack "Net" Hrun.
  exact (proj1 (stack_touches_only_its_subtree Ec2ClassicStack _ _ _ _ _
                  ltac:(in_list) Hrun)).
Defined.

Lemma stacks_keep_tree_well_formed_witness :
  ∃ st',
    wrapped.HitCounterAppStack [] "App" empty_app = Some (["App"], st')
    ∧ app_wf empty_app ∧ scope_ok empty_app [] ∧ app_wf st'.
Proof.
  eexists. split; [vm_compute; reflexivity|].
  split; [exact empty_app_wf|]. split; [by left|].
  with_run wrapped.HitCounterAppStack "App" Hrun.
  exact (stacks_keep_tree_well_formed wrapped.HitCounterAppStack _ _ _ _ _
           ltac:(in_list) empty_app_wf (or_introl eq_refl) Hrun).
Defined.

Lemma HitCounter_keeps_tree_well_formed_witness :
  ∃ st1 hc st2,
    wrapped.HitCounterAppStack [] "App" empty_app = Some (["App"], st1)
    ∧ hitcounter.new_HitCounter ["App"] "Second"
        {| hitcounter.downstream :=
             {| lambda.node := ["App"; "HelloHandler"] |} |} st1
      = Some (hc, st2)
    ∧ app_wf st1 ∧ scope_ok st1 ["App"]
    ∧ is_function st1 ["App"; "HelloHandler"]
    ∧ app_wf st2.
Proof.
  eexists _, _, _.
  split; [vm_compute; reflexivity|]. split; [vm_compute; reflexivity|].
  lazymatch goal with
  | |- app_wf ?a ∧ _ ∧ _ ∧ app_wf ?b =>
      assert (Hrun1 : wrapped.HitCounterAppStack [] "App" empty_app
                      = Some (["App"], a)) by (vm_compute; reflexivity);
      assert (Hrun2 : hitcounter.new_HitCounter ["App"] "Second"
                {| hitcounter.downstream :=
                     {| lambda.node := ["App"; "HelloHandler"] |} |} a
              = Some (_, b)) by (vm_compute; reflexivity)
  end.
  pose proof (wrapped_stack_keeps_wf _ _ _ _ _ empty_app_wf
                (or_introl eq_refl) Hrun1) as Hwf1.
  split; [exact Hwf1|].
  match goal with |- ?S ∧ ?F ∧ _ =>
    assert (Hs : S) by (right; eexists; simpl; in_list);
    assert (Hf : F) by (eexists; simpl; in_list)
  end.
  split; [exact Hs|]. split; [exact Hf|].
  exact (HitCounter_keeps_tree_well_formed ["App"] "Second"
           {| hitcounter.downstream :=
                {| lambda.node := ["App"; "HelloHandler"] |} |}
           _ _ _ Hwf1 Hs Hf Hrun2).
Defined.


Lemma HitCounter_adds_exactly_its_grants_witness :
  ∃ hc st',
    hitcounter.new_HitCounter ["App"] "Counter"
      {| hitcounter.downstream := {| lambda.node := ["App"; "Hello"] |} |}
      empty_app = Some (hc, st')
    ∧ (permitted st' ["App"; "Hello"] ["App"; "Counter"; "Hits"] WriteData
       ↔ permitted empty_app ["App"; "Hello"] ["App"; "Counter"; "Hits"]
           WriteData
         ∨ (["App"; "Hello"] = lambda.node (hitcounter.handler hc)
            ∧ ((["App"; "Counter"; "Hits"]
                  = dynamodb.node (hitcounter.table hc)
                ∧ (WriteData = ReadData ∨ WriteData = WriteData))
               ∨ (["App"; "Counter"; "Hits"] = ["App"; "Hello"]
                  ∧ WriteData = InvokeFunction)))).
Proof.
  eexists _, _. split; [vm_compute; reflexivity|].
  lazymatch goal with
  | |- context [Build_App ?c ?g ?i] =>
      assert (Hrun : hitcounter.new_HitCounter ["App"] "Counter"
                {| hitcounter.downstream :=
                     {| lambda.node := ["App"; "Hello"] |} |} empty_app
              = Some (_, Build_App c g i)) by (vm_compute; reflexivity)
  end.
  exact (HitCounter_adds_exactly_its_grants ["App"] "Counter"
           {| hitcounter.downstream := {| lambda.node := ["App"; "Hello"] |} |}
           _ _ _ ["App"; "Hello"] ["App"; "Counter"; "Hits"] WriteData Hrun).
Defined.

Lemma HitCounters_isolated_witness :
  ∃ hc1 st1 hc2 st2,
    hitcounter.new_HitCounter ["App"] "A"
      {| hitcounter.downstream := {| lambda.node := ["App"; "Hello"] |} |}
      empty_app = Some (hc1, st1)
    ∧ hitcounter.new_HitCounter ["App"] "B"
        {| hitcounter.downstream := {| lambda.node := ["App"; "Hello"] |} |}
        st1 = Some (hc2, st2)
    ∧ hitcounter.table hc1 ≠ hitcounter.table hc2
    ∧ ¬ permitted st2 (lambda.node (hitcounter.handler hc1))
          (dynamodb.node (hitcounter.table hc2)) ReadData.
Proof.
  eexists _, _, _, _.
  split; [vm_compute; reflexivity|]. split; [vm_compute; reflexivity|].
  lazymatch goal with
  | |- _ ∧ ¬ permitted ?b _ _ _ =>
      assert (H2 : ∃ a,
                hitcounter.new_HitCounter ["App"] "A"
                  {| hitcounter.downstream :=
                       {| lambda.node := ["App"; "Hello"] |} |} empty_app
                = Some (_, a)
                ∧ hitcounter.new_HitCounter ["App"] "B"
                    {| hitcounter.downstream :=
                         {| lambda.node := ["App"; "Hello"] |} |} a
                  = Some (_, b))
        by (eexists; split; vm_compute; reflexivity)
  end.
  destruct H2 as (a & Hrun1 & Hrun2).
  destruct (HitCounters_isolated _ _ _ _ _ _ _ _ _ _ _ ReadData
              empty_app_wf Hrun1 Hrun2) as (Ht & _ & Hp).
  split; [exact Ht|]. apply Hp. discriminate.
Defined.

Lemma stacks_grant_only_what_is_configured_witness :
  ∃ st',
    wrapped.HitCounterAppStack [] "App" empty_app = Some (["App"], st')
    ∧ permitted st' ["App"; "HelloHitCounter"; "HitCounterHandler"]
        ["App"; "HelloHandler"] InvokeFunction
    ∧ ∃ fprops,
        (["App"; "HelloHitCounter"; "HitCounterHandler"], RFunction fprops)
          ∈ created empty_app st'
        ∧ is_forwarder fprops = true
        ∧ lambda.environment fprops !! "DOWNSTREAM_FUNCTION_NAME"
            = Some (FunctionNameOf ["App"; "HelloHandler"]).
Proof.
  eexists. split; [vm_compute; reflexivity|].
  with_run wrapped.HitCounterAppStack "App" Hrun.
  match goal with |- ?P ∧ _ =>
    assert (Hperm : P)
      by (eexists; split;
          [simpl; apply list_elem_of_further, list_elem_of_here|];
          simpl; repeat split; in_list)
  end.
  split; [exact Hperm|].
  destruct (stacks_grant_only_what_is_configured wrapped.HitCounterAppStack
              _ _ _ _ _ _ _ _ ltac:(in_list) Hrun Hperm)
    as [(g & Hin & _)|(fprops & Hin & Hfw & [(Hne & _)|(_ & Henv & _)])].
  - by apply elem_of_nil in Hin.
  - done.
  - exists fprops. by repeat split.
Defined.

Lemma configured_resources_are_granted_witness :
  ∃ st' fprops,
    wrapped.HitCounterAppStack [] "App" empty_app = Some (["App"], st')
    ∧ (["App"; "HelloHitCounter"; "HitCounterHandler"], RFunction fprops)
        ∈ created empty_app st'
    ∧ lambda.environment fprops !! "DOWNSTREAM_FUNCTION_NAME"
        = Some (FunctionNameOf ["App"; "HelloHandler"])
    ∧ permitted st' ["App"; "HelloHitCounter"; "HitCounterHandler"]
        ["App"; "HelloHandler"] InvokeFunction.
Proof.
  eexists _, _. split; [vm_compute; reflexivity|].
  match goal with |- ?A ∧ _ =>
    assert (Hin : A) by (vm_compute; in_list)
  end.
  split; [exact Hin|].
  match goal with |- ?B ∧ _ =>
    assert (Henv : B) by (vm_compute; reflexivity)
  end.
  split; [exact Henv|].
  with_run wrapped.HitCounterAppStack "App" Hrun.
  exact (proj2 (configured_resources_are_granted wrapped.HitCounterAppStack
                  _ _ _ _ _ _ _ ltac:(in_list) Hrun Hin) _ Henv).
Defined.

Lemma helloFn_reached_only_through_forwarder_witness :
  ∃ st',
    wrapped.HitCounterAppStack [] "App" empty_app = Some (["App"], st')
    ∧ (∀ what perm, ¬ permitted st' (["App"] ++ ["HelloHandler"]) what perm)
    ∧ (∀ who perm,
         permitted st' who (["App"] ++ ["HelloHandler"])%list perm →
         who = ((["App"] ++ ["HelloHitCounter"]) ++ ["HitCounterHandler"])%list
         ∧ perm = InvokeFunction)
    ∧ permitted st'
        ((["App"] ++ ["HelloHitCounter"]) ++ ["HitCounterHandler"])
        (["App"] ++ ["HelloHandler"]) InvokeFunction.
Proof.
  eexists. split; [vm_compute; reflexivity|].
  with_run wrapped.HitCounterAppStack "App" Hrun.
  exact (helloFn_reached_only_through_forwarder _ _ _ _ _ empty_app_wf Hrun).
Defined.

Lemma later_stacks_leave_earlier_access_alone_witness :
  ∃ st1 st2,
    wrapped.HitCounterAppStack [] "App" empty_app = Some (["App"], st1)
    ∧ Ec2ClassicStack [] "Net" st1 = Some (["Net"], st2)
    ∧ app_wf st1
    ∧ is_function st1 ["App"; "HelloHitCounter"; "HitCounterHandler"]
    ∧ (permitted st2 ["App"; "HelloHitCounter"; "HitCounterHandler"]
         ["App"; "HelloHitCounter"; "Hits"] WriteData
       ↔ permitted st1 ["App"; "HelloHitCounter"; "HitCounterHandler"]
           ["App"; "HelloHitCounter"; "Hits"] WriteData).
Proof.
  eexists _, _.
  split; [vm_compute; reflexivity|]. split; [vm_compute; reflexivity|].
  lazymatch goal with
  | |- app_wf ?a ∧ _ ∧ (permitted ?b _ _ _ ↔ _) =>
      assert (Hrun1 : wrapped.HitCounterAppStack [] "App" empty_app
                      = Some (["App"], a)) by (vm_compute; reflexivity);
      assert (Hrun2 : Ec2ClassicStack [] "Net" a = Some (["Net"], b))
        by (vm_compute; reflexivity)
  end.
  pose proof (wrapped_stack_keeps_wf _ _ _ _ _ empty_app_wf
                (or_introl eq_refl) Hrun1) as Hwf1.
  split; [exact Hwf1|].
  match goal with |- ?F ∧ _ =>
    assert (Hf : F) by (eexists; simpl; in_list)
  end.
  split; [exact Hf|].
  exact (proj1 (later_stacks_leave_earlier_access_alone Ec2ClassicStack
                  _ _ _ _ _ ltac:(in_list) Hwf1 Hrun2) _ _ _ Hf).
Defined.

Lemma world_reaches_only_frontend_http_witness :
  ∃ st',
    Ec2ClassicStack [] "Net" empty_app = Some (["Net"], st')
    ∧ ingress_wf empty_app
    ∧ (admits st' {| ec2.node := ["Net"] ++ ["FrontendSG"] |}
         {| src_addr := 3405803777; src_groups := [];
            pkt_protocol := ec2.TCP; dst_port := 22 |} = true
       ↔ ec2.TCP = ec2.TCP ∧ 22%Z = 80%Z)
    ∧ ({| ec2.node := ["Net"] ++ ["FrontendSG"] |}
         ∉ ([] : list ec2.SecurityGroup) →
       admits st' {| ec2.node := ["Net"] ++ ["BackendSG"] |}
         {| src_addr := 3405803777; src_groups := [];
            pkt_protocol := ec2.TCP; dst_port := 22 |} = false).
Proof.
  pose proof (app_wf_ingress_wf _ empty_app_wf) as Hwf.
  eexists. split; [vm_compute; reflexivity|]. split; [exact Hwf|].
  with_run Ec2ClassicStack "Net" Hrun.
  refine (world_reaches_only_frontend_http [] "Net" empty_app _ _
            {| src_addr := 3405803777; src_groups := [];
               pkt_protocol := ec2.TCP; dst_port := 22 |} Hrun Hwf _).
  simpl. lia.
Defined.

Lemma instances_fit_the_vpc_witness :
  ∃ st' iprops,
    Ec2ClassicStack [] "Net" empty_app = Some (["Net"], st')
    ∧ (["Net"; "BackendServer"], RInstance iprops) ∈ created empty_app st'
    ∧ ∃ vprops gprops,
        (ec2.vpc_node (ec2.inst_vpc iprops), RVpc vprops)
          ∈ created empty_app st'
        ∧ ec2.vpcSubnets iprops
            ∈ ec2.subnetType <$> ec2.subnetConfiguration vprops
        ∧ Forall (λ c, ec2.subnetType c = ec2.PUBLIC)
            (ec2.subnetConfiguration vprops)
        ∧ ec2.natGateways vprops = 0%Z
        ∧ (ec2.node (ec2.securityGroup iprops), RSecurityGroup gprops)
            ∈ created empty_app st'
        ∧ ec2.vpc gprops = ec2.inst_vpc iprops.
Proof.
  eexists _, _. split; [vm_compute; reflexivity|].
  match goal with |- ?A ∧ _ =>
    assert (Hin : A) by (vm_compute; in_list)
  end.
  split; [exact Hin|].
  with_run Ec2ClassicStack "Net" Hrun.
  exact (instances_fit_the_vpc _ _ _ _ _ _ _ Hrun Hin).
Defined.

Lemma only_frontend_address_is_published_witness :
  ∃ st',
    Ec2ClassicStack [] "Net" empty_app = Some (["Net"], st')
    ∧ (["Net"; "FrontendURL"],
       RCfnOutput [Literal "http://";
                   InstancePublicIpOf ["Net"; "FrontendServer"]])
        ∈ created empty_app st'
    ∧ ∃ iprops,
        (["Net"; "FrontendServer"], RInstance iprops) ∈ created empty_app st'
        ∧ ec2.securityGroup iprops
            = {| ec2.node := ["Net"] ++ ["FrontendSG"] |}.
Proof.
  eexists. split; [vm_compute; reflexivity|].
  match goal with |- ?A ∧ _ =>
    assert (Hin : A) by (vm_compute; in_list)
  end.
  split; [exact Hin|].
  with_run Ec2ClassicStack "Net" Hrun.
  exact (only_frontend_address_is_published _ _ _ _ _ _ _
           (InstancePublicIpOf ["Net"; "FrontendServer"]) Hrun Hin
           ltac:(in_list)).
Defined.

Lemma website_served_from_deployed_bucket_witness :
  ∃ st',
    MyCdkAppStack [] "Site" empty_app = Some (["Site"], st')
    ∧ ∃ b bprops,
        (b, RBucket bprops) ∈ created empty_app st'
        ∧ (∀ p dprops, (p, RBucketDeployment dprops) ∈ created empty_app st' →
                       s3.node (s3deploy.destinationBucket dprops) = b)
        ∧ (∀ p value, (p, RCfnOutput value) ∈ created empty_app st' →
                      value = [BucketWebsiteUrlOf b])
        ∧ (∃ p dprops, (p, RBucketDeployment dprops) ∈ created empty_app st')
        ∧ (∃ p value, (p, RCfnOutput value) ∈ created empty_app st')
        ∧ s3.websiteIndexDocument bprops = "index.html"
        ∧ s3.publicReadAccess bprops = true
        ∧ blocks_public_policy (s3.blockPublicAccess bprops) = false.
Proof.
  eexists. split; [vm_compute; reflexivity|].
  with_run MyCdkAppStack "Site" Hrun.
  exact (website_served_from_deployed_bucket _ _ _ _ _ Hrun).
Defined.

Lemma nothing_is_retained_witness :
  ∃ st' props,
    standalone.HitCounterAppStack [] "App" empty_app = Some (["App"], st')
    ∧ (["App"; "Hits"], RTable props) ∈ created empty_app st'
    ∧ dynamodb.removalPolicy props = Some DESTROY.
Proof.
  eexists _, _. split; [vm_compute; reflexivity|].
  match goal with |- ?A ∧ _ =>
    assert (Hin : A) by (vm_compute; in_list)
  end.
  split; [exact Hin|].
  with_run standalone.HitCounterAppStack "App" Hrun.
  exact (nothing_is_retained standalone.HitCounterAppStack _ _ _ _ _ _ _
           ltac:(in_list) Hrun Hin).
Defined.
